(** * lecture_4/pin_cheat_list.ipynb

    The repository is one Jupyter notebook: a sequence of code cells that
    call trimesh, pinocchio and meshcat.  The development has these parts:

    - [Syntax]: the abstract syntax of the Python the cells are written in
      (named after Python's [ast] module), followed by the transcription of
      the notebook, cell by cell;
    - [Audit]: syntactic analyses of that transcription (statement kinds,
      imports, names bound and read, call sites, string constants, the
      stages of the pipeline);
    - [Urdf]: the joint graph of the robot description the notebook loads;
    - [Run]: an interpreter for the cells in a state-and-exception monad.
      The third-party libraries are not part of the repository, so every
      library operation is an entry of a [library] record the interpreter
      is parameterised by; what the interpreter fixes is the notebook's own
      behaviour: evaluation order, name binding, the builtins [print] and
      [hasattr], the short-circuit [and], and how exceptions travel.  A run
      records a trace of its operations, and theorems about the notebook
      hold for every library and every state of the world;
    - [Symbolic]: libraries to run the notebook against, with or without
      faults.

    Numbers stay uninterpreted: the floating-point results of trimesh and
    pinocchio are values of the library, not of the interpreter. *)

From stdpp Require Import gmap strings list.
From Stdlib Require Import ZArith Ascii.

Local Open Scope string_scope.
Local Open Scope list_scope.
Local Set Warnings "-register-all".

(* ===================================================================== *)
(** ** Abstract syntax *)
(* ===================================================================== *)

Module Syntax.

(** Literals.  A float literal is kept as the decimal the source writes,
    [CFloat m e] for m * 10^e (so [.4] is [CFloat 4 (-1)]). *)
Inductive constant : Type :=
| CNone
| CBool (b : bool)
| CInt (n : Z)
| CFloat (mantissa exponent : Z)
| CStr (s : string).

Inductive operator : Type := Add | Sub | Mult | Div.

Inductive boolop : Type := And | Or.

Inductive expr : Type :=
| Constant (value : constant)
| Name (id : string)
| Attribute (value : expr) (attr : string)
| Subscript (value : expr) (slice : expr)
| Call (func : expr) (args : list expr) (keywords : list (string * expr))
| BinOp (left : expr) (op : operator) (right : expr)
| BoolOp (op : boolop) (left right : expr)
| IfExp (test body orelse : expr)
| ListE (elts : list expr)
| TupleE (elts : list expr)
| JoinedStr (values : list expr)
| FormattedValue (value : expr).

(** Statements.  The notebook uses [Import], [ImportFrom], [Assign] and
    [Expr] only; the other forms are here so that "the notebook has no
    [try]" is a checked fact about the transcription and not a property of
    the type. *)
Inductive stmt : Type :=
| Import (name : string) (asname : option string)
| ImportFrom (module name : string) (asname : option string)
| Assign (target : expr) (value : expr)
| Expr (value : expr)
| Pass
| If (test : expr) (body orelse : list stmt)
| While (test : expr) (body : list stmt)
| For (target iter : expr) (body : list stmt)
| Try (body : list stmt) (handlers : list (option expr * list stmt))
      (finalbody : list stmt)
| With (item : expr) (body : list stmt)
| Raise (exc : option expr)
| Return (value : option expr)
| FunctionDef (name : string) (params : list string) (body : list stmt)
| AsyncFunctionDef (name : string) (params : list string) (body : list stmt)
| ClassDef (name : string) (bases : list expr) (body : list stmt).

Inductive cell : Type :=
| Markdown (heading : string)
| Code (source : list stmt).

(** Shorthands used by the transcription. *)
Definition Str (s : string) : expr := Constant (CStr s).
Definition Int (n : Z) : expr := Constant (CInt n).
Definition Float (m e : Z) : expr := Constant (CFloat m e).
Definition Call0 (f : expr) : expr := Call f [] [].
Definition print (args : list expr) : stmt := Expr (Call (Name "print") args []).
Notation "e # a" := (Attribute e a) (at level 19, left associativity).
Notation "$ x" := (Name x) (at level 9, format "$ x").

End Syntax.
Import Syntax.

(* ===================================================================== *)
(** ** The notebook *)
(* ===================================================================== *)

(** One definition per code cell, numbered by the cell's position in the
    notebook (markdown cells count). *)

Definition cell_2 : list stmt :=
  [ Import "trimesh" (Some "tr");
    Assign $"box_one"
      (Call ($"tr" # "primitives" # "Box") []
         [("extents", ListE [Float 4 (-1); Float 2 (-1); Float 1 (-1)])]);
    Assign ($"box_one" # "density") (Int 7800);
    print [JoinedStr [Str "mass = "; FormattedValue ($"box_one" # "mass")]];
    print [JoinedStr [Str "inertia = ";
                      FormattedValue ($"box_one" # "moment_inertia")]] ].

Definition cell_4 : list stmt :=
  [ Assign $"cylinder"
      (Call ($"tr" # "primitives" # "Cylinder") []
         [("radius", Float 5 (-2)); ("height", Float 15 (-2))]);
    Assign $"cylinder_mass" (Int 5);
    Assign ($"cylinder" # "density")
      (BinOp $"cylinder_mass" Div ($"cylinder" # "volume"));
    print [$"cylinder" # "moment_inertia"] ].

Definition cell_6 : list stmt :=
  [ Assign $"rotation"
      (Call ($"tr" # "transformations" # "euler_matrix")
         [Int 1; Int 0; Int 0] [("axes", Str "sxyz")]);
    Expr (Call ($"cylinder" # "apply_transform") [$"rotation"] []);
    Expr (Call0 ($"cylinder" # "show"));
    print [$"cylinder" # "moment_inertia"] ].

Definition cell_9 : list stmt :=
  [ ImportFrom "os" "path" None;
    Import "pinocchio" (Some "pin");
    ImportFrom "pinocchio.visualize" "MeshcatVisualizer" None;
    Import "meshcat" None ].

Definition cell_10 : list stmt :=
  [ Assign $"MODEL_NAME" (Str "two_bodies.urdf");
    Assign $"ROOT" (Call ($"path" # "abspath") [Str ""] []);
    Assign $"FOLDER_PATH" (Call ($"path" # "join") [$"ROOT"; Str ""] []);
    Assign $"MODEL_PATH"
      (Call ($"path" # "join") [$"FOLDER_PATH"; $"MODEL_NAME"] []);
    Assign (TupleE [$"model"; $"collision_model"; $"visual_model"])
      (Call ($"pin" # "buildModelsFromUrdf")
         [$"MODEL_PATH"; Constant CNone;
          Call0 ($"pin" # "JointModelFreeFlyer")] []);
    Assign $"data" (Call0 ($"model" # "createData")) ].

Definition cell_11 : list stmt :=
  [ Assign $"viz"
      (Call $"MeshcatVisualizer"
         [$"model"; $"collision_model"; $"visual_model"] []);
    Assign ($"viz" # "viewer")
      (Call ($"meshcat" # "Visualizer") []
         [("zmq_url", Str "tcp://127.0.0.1:6000")]);
    Expr (Call0 ($"viz" # "clean"));
    Expr (Call0 ($"viz" # "loadViewerModel"));
    Assign $"q0" (Call ($"pin" # "neutral") [$"model"] []);
    Expr (Call ($"viz" # "display") [$"q0"] []);
    Expr (Call ($"viz" # "displayVisuals") [Constant (CBool true)] []) ].

(** [hasattr(viz.viewer, 'jupyter_cell') and viz.viewer.jupyter_cell()] *)
Definition jupyter_probe : expr :=
  Call $"hasattr" [$"viz" # "viewer"; Str "jupyter_cell"] [].
Definition jupyter_call : expr :=
  Call0 ($"viz" # "viewer" # "jupyter_cell").
Definition cell_12 : list stmt :=
  [ Expr (BoolOp And jupyter_probe jupyter_call) ].

Definition cell_14 : list stmt := [ Expr ($"model" # "name") ].
Definition cell_15 : list stmt :=
  [ Expr (Call0 ($"model" # "names" # "tolist")) ].
Definition cell_16 : list stmt :=
  [ Expr (Call0 ($"model" # "joints" # "tolist")) ].
Definition cell_17 : list stmt :=
  [ Expr (Call0 ($"model" # "jointPlacements" # "tolist")) ].
Definition cell_18 : list stmt :=
  [ Expr (Call0 ($"model" # "inertias" # "tolist")) ].
Definition cell_19 : list stmt :=
  [ print [$"model" # "nq"; $"model" # "nv"] ].

Definition cell_21 : list stmt :=
  [ Assign $"q" (Call ($"pin" # "neutral") [$"model"] []);
    Expr (Call ($"pin" # "framesForwardKinematics")
            [$"model"; $"data"; $"q"] []) ].

Definition cell_22 : list stmt :=
  [ Expr (Call0 ($"data" # "joints" # "tolist")) ].
Definition cell_23 : list stmt := [ Expr (Call0 ($"data" # "oMi" # "tolist")) ].
Definition cell_24 : list stmt := [ Expr (Call0 ($"data" # "oMf" # "tolist")) ].
Definition cell_25 : list stmt := [ Expr (Call0 ($"data" # "v" # "tolist")) ].
Definition cell_26 : list stmt := [ Expr (Call0 ($"data" # "a" # "tolist")) ].
Definition cell_27 : list stmt := [ Expr (Call0 ($"data" # "f" # "tolist")) ].
Definition cell_28 : list stmt := [ Expr (Call0 ($"data" # "M" # "tolist")) ].
Definition cell_29 : list stmt := [ Expr (Call0 ($"data" # "nle" # "tolist")) ].
Definition cell_30 : list stmt := [ Expr ($"data" # "hg") ].
Definition cell_31 : list stmt := [ Expr ($"data" # "Ag") ].
Definition cell_32 : list stmt := [ Expr ($"data" # "Ig") ].

Definition cell_33 : list stmt :=
  [ Assign $"LINK_NAME" (Str "body_two");
    Assign $"LINK_ID" (Call ($"model" # "getBodyId") [$"LINK_NAME"] []);
    Assign $"q" (Call ($"pin" # "neutral") [$"model"] []);
    Expr (Call ($"pin" # "framesForwardKinematics")
            [$"model"; $"data"; $"q"] []);
    Assign $"iMd" (Subscript ($"data" # "oMf") $"LINK_ID");
    print [$"iMd"] ].

Definition cell_34 : list stmt :=
  [ Assign $"M" (Call0 ($"pin" # "SE3" # "Random"));
    print [$"M"] ].
Definition cell_35 : list stmt := [ Expr ($"M" # "rotation") ].
Definition cell_36 : list stmt := [ Expr ($"M" # "translation") ].
Definition cell_37 : list stmt :=
  [ print [Call ($"pin" # "SE3") [$"M" # "rotation"; $"M" # "translation"] []] ].
Definition cell_38 : list stmt := [ print [Call0 ($"M" # "inverse")] ].
Definition cell_39 : list stmt :=
  [ print [BinOp $"M" Mult (Call0 ($"M" # "inverse"))] ].
Definition cell_40 : list stmt := [ print [$"M" # "action"] ].
Definition cell_41 : list stmt := [ print [$"M" # "homogeneous"] ].

Definition pin_cheat_list : list cell :=
  [ Markdown "# Quick start with pinocchio";
    Markdown "# 1. URDF + trimesh";
    Code cell_2;
    Markdown "Now you can fill in `mass` and `inertia` values.";
    Code cell_4;
    Markdown "We can also us apply coordinate transformation if it is needed. ";
    Code cell_6;
    Markdown "Now you can fill in `mass` and `inertia` values for the second body.";
    Markdown "# 2. Pinocchio + meshcat";
    Code cell_9;
    Code cell_10;
    Code cell_11;
    Code cell_12;
    Markdown "# 3. Model";
    Code cell_14; Code cell_15; Code cell_16; Code cell_17; Code cell_18;
    Code cell_19;
    Markdown "# 4. Data";
    Code cell_21;
    Code cell_22; Code cell_23; Code cell_24; Code cell_25; Code cell_26;
    Code cell_27; Code cell_28; Code cell_29; Code cell_30; Code cell_31;
    Code cell_32;
    Code cell_33;
    Code cell_34; Code cell_35; Code cell_36; Code cell_37; Code cell_38;
    Code cell_39; Code cell_40; Code cell_41 ].

(* ===================================================================== *)
(** ** Syntactic analyses *)
(* ===================================================================== *)

Module Audit.

(** Every node of an expression, the expression itself first. *)
Fixpoint subexprs (e : expr) : list expr :=
  e ::
  match e with
  | Constant _ | Name _ => []
  | Attribute v _ => subexprs v
  | Subscript v s => subexprs v ++ subexprs s
  | Call f args kws =>
      subexprs f ++ flat_map subexprs args
        ++ flat_map (fun kw => subexprs (snd kw)) kws
  | BinOp l _ r => subexprs l ++ subexprs r
  | BoolOp _ l r => subexprs l ++ subexprs r
  | IfExp c a b => subexprs c ++ subexprs a ++ subexprs b
  | ListE es | TupleE es | JoinedStr es => flat_map subexprs es
  | FormattedValue v => subexprs v
  end.

(** Every statement of a block, nested bodies included. *)
Fixpoint substmts (s : stmt) : list stmt :=
  s ::
  match s with
  | If _ b1 b2 => flat_map substmts b1 ++ flat_map substmts b2
  | While _ b | For _ _ b | With _ b => flat_map substmts b
  | Try b hs f =>
      flat_map substmts b
        ++ flat_map (fun h => flat_map substmts (snd h)) hs
        ++ flat_map substmts f
  | FunctionDef _ _ b | AsyncFunctionDef _ _ b | ClassDef _ _ b =>
      flat_map substmts b
  | _ => []
  end.

(** The expressions a statement holds itself (not those of nested
    statements). *)
Definition stmt_exprs (s : stmt) : list expr :=
  match s with
  | Assign t v => [t; v]
  | Expr v => [v]
  | If c _ _ | While c _ => [c]
  | For t i _ => [t; i]
  | Try _ hs _ => omap fst hs
  | With i _ => [i]
  | Raise (Some e) | Return (Some e) => [e]
  | ClassDef _ bases _ => bases
  | _ => []
  end.

Definition code_cells (nb : list cell) : list (nat * list stmt) :=
  omap (fun ic => match snd ic with
                  | Code src => Some (fst ic, src)
                  | Markdown _ => None
                  end) (imap pair nb).

(** The notebook as the kernel runs it top to bottom: the code cells'
    statements, in order. *)
Definition program (nb : list cell) : list stmt :=
  flat_map snd (code_cells nb).

Definition every_stmt (nb : list cell) : list stmt :=
  flat_map substmts (program nb).

Definition every_expr (nb : list cell) : list expr :=
  flat_map subexprs (flat_map stmt_exprs (every_stmt nb)).

(** *** Statement kinds *)

Definition catches (s : stmt) : bool :=
  match s with Try _ _ _ | With _ _ => true | _ => false end.
Definition raises (s : stmt) : bool :=
  match s with Raise _ => true | _ => false end.
Definition loops (s : stmt) : bool :=
  match s with While _ _ | For _ _ _ => true | _ => false end.
Definition defines_class (s : stmt) : bool :=
  match s with ClassDef _ _ _ => true | _ => false end.

(** The four forms the notebook is written in. *)
Definition simple (s : stmt) : bool :=
  match s with
  | Import _ _ | ImportFrom _ _ _ | Assign _ _ | Expr _ => true
  | _ => false
  end.

Definition conditional (e : expr) : bool :=
  match e with IfExp _ _ _ | BoolOp _ _ _ => true | _ => false end.

(** No [try], [with], [raise], loop or class definition anywhere. *)
Definition no_handlers (nb : list cell) : bool :=
  forallb (fun s => negb (catches s || raises s || loops s || defines_class s))
          (every_stmt nb).

(** *** Imports, names, call sites, constants *)

Definition imported (s : stmt) : option string :=
  match s with
  | Import m _ | ImportFrom m _ _ => Some m
  | _ => None
  end.
Definition imports (nb : list cell) : list string :=
  omap imported (every_stmt nb).

Definition name_of (e : expr) : option string :=
  match e with Name x => Some x | _ => None end.
Definition attr_of (e : expr) : option string :=
  match e with Attribute _ a => Some a | _ => None end.
Definition str_of (e : expr) : option string :=
  match e with Constant (CStr s) => Some s | _ => None end.
Definition callee_of (e : expr) : option expr :=
  match e with Call f _ _ => Some f | _ => None end.

(** The dotted path of a callee: [pin.SE3.Random] is
    ["pin"; "SE3"; "Random"]. *)
Fixpoint dotted (e : expr) : list string :=
  match e with
  | Name x => [x]
  | Attribute v a => dotted v ++ [a]
  | _ => []
  end.

(** Every call of the notebook, by the dotted path of its callee, in
    source order of the enclosing statements. *)
Definition calls (nb : list cell) : list (list string) :=
  dotted <$> omap callee_of (every_expr nb).

(** The string constants handed to a call, positionally or by keyword. *)
Definition call_strings (e : expr) : list string :=
  match e with
  | Call _ args kws => omap str_of args ++ omap (fun kw => str_of (snd kw)) kws
  | _ => []
  end.

Definition has_prefix (p s : string) : bool :=
  bool_decide (String.substring 0 (String.length p) s = p).

Definition is_network_url (s : string) : bool :=
  existsb (fun scheme => has_prefix scheme s)
          ["tcp://"; "udp://"; "http://"; "https://"; "ws://"; "wss://"].

(** The network endpoints the notebook asks a library to connect to: the
    URL arguments of its calls. *)
Definition network_endpoints (nb : list cell) : list string :=
  filter (fun s => is_network_url s = true)
         (flat_map call_strings (every_expr nb)).

Definition opens_no_network_connection (nb : list cell) : bool :=
  bool_decide (network_endpoints nb = []).

(** *** Names bound and read *)

(** What a statement reads: for an assignment, the value and, in the
    target, everything but the names being bound. *)
Fixpoint target_reads (t : expr) : list expr :=
  match t with
  | Name _ => []
  | Attribute v _ => [v]
  | Subscript v s => [v; s]
  | TupleE ts | ListE ts => flat_map target_reads ts
  | _ => [t]
  end.

Fixpoint target_binds (t : expr) : list string :=
  match t with
  | Name x => [x]
  | TupleE ts | ListE ts => flat_map target_binds ts
  | _ => []
  end.

Definition reads (s : stmt) : list string :=
  omap name_of
    (flat_map subexprs
       match s with
       | Assign t v => v :: target_reads t
       | _ => stmt_exprs s
       end).

(** The name [import a.b.c] binds is [a]. *)
Fixpoint top_package (m : string) : string :=
  match m with
  | EmptyString => EmptyString
  | String c rest =>
      if Ascii.eqb c "."%char then EmptyString else String c (top_package rest)
  end.

Definition binds (s : stmt) : list string :=
  match s with
  | Import m None => [top_package m]
  | Import _ (Some a) => [a]
  | ImportFrom _ n None => [n]
  | ImportFrom _ _ (Some a) => [a]
  | Assign t _ => target_binds t
  | _ => []
  end.

(** The builtins the notebook uses. *)
Definition builtins : list string := ["print"; "hasattr"].

(** Every name a statement reads is a builtin or was bound by an earlier
    statement.  Compound statements are not tracked (the check fails on
    them). *)
Fixpoint bound_before_use (bound : list string) (p : list stmt) : bool :=
  match p with
  | [] => true
  | s :: p =>
      simple s
      && forallb (fun x => bool_decide (x ∈ bound)) (reads s)
      && bound_before_use (binds s ++ bound) p
  end.

(** *** The stages of the notebook's pipeline *)

Inductive stage : Type :=
| Mesh         (* shape parameters to mass and inertia, by trimesh *)
| Parse        (* the URDF file to a model *)
| Kinematics   (* forward kinematics fills [data] *)
| Inspect.     (* fields of [model] and [data] are displayed or printed *)

Definition stage_rank (g : stage) : nat :=
  match g with Mesh => 0 | Parse => 1 | Kinematics => 2 | Inspect => 3 end.

Definition callees (s : stmt) : list (list string) :=
  dotted <$> omap callee_of (flat_map subexprs (stmt_exprs s)).

Definition calls_to (path : list string) (s : stmt) : bool :=
  bool_decide (path ∈ callees s).

(** The names whose values come from the names [seed]: a statement that
    reads one of them hands it on to the names it binds. *)
Fixpoint derived (seed : list string) (p : list stmt) : list string :=
  match p with
  | [] => seed
  | s :: p =>
      if existsb (fun x => bool_decide (x ∈ seed)) (reads s)
      then derived (seed ++ binds s) p
      else derived seed p
  end.

(** The fields of the variable [x] that an expression reads: [a] for each
    [x.a] in it. *)
Definition fields_of (x : string) (e : expr) : list string :=
  omap (fun e' => match e' with
                  | Attribute (Name y) a => if bool_decide (y = x) then Some a else None
                  | _ => None
                  end) (subexprs e).

(** A statement that shows a field of [x]: an expression statement (a bare
    expression, which the notebook displays, or a [print]) that reads
    one. *)
Definition shows_field_of (x : string) (s : stmt) : bool :=
  match s with
  | Expr e => negb (bool_decide (fields_of x e = []))
  | _ => false
  end.

Definition stage_of (mesh_names : list string) (s : stmt) : option stage :=
  if calls_to ["pin"; "buildModelsFromUrdf"] s then Some Parse
  else if calls_to ["pin"; "framesForwardKinematics"] s then Some Kinematics
  else if existsb (fun x => bool_decide (x ∈ mesh_names)) (reads s)
       then Some Mesh
  else if shows_field_of "model" s || shows_field_of "data" s
       then Some Inspect
  else None.

Definition mesh_names (nb : list cell) : list string :=
  derived ["tr"] (program nb).

(** The stages in the order the notebook goes through them, each with the
    number of its cell. *)
Definition stages (nb : list cell) : list (nat * stage) :=
  flat_map (fun c => omap (fun s => pair (fst c) <$> stage_of (mesh_names nb) s)
                          (snd c))
           (code_cells nb).

Fixpoint nondecreasing (ns : list nat) : bool :=
  match ns with
  | n :: (m :: _) as rest => (n <=? m)%nat && nondecreasing rest
  | _ => true
  end.

(** No statement of a later stage comes before one of an earlier stage. *)
Definition pipeline_in_order (nb : list cell) : bool :=
  nondecreasing (stage_rank <$> (snd <$> stages nb)).

Definition stage_eqb (g h : stage) : bool :=
  (stage_rank g =? stage_rank h)%nat.

(** The cells with a statement of stage [g]. *)
Definition cells_at (g : stage) (nb : list cell) : list nat :=
  remove_dups (omap (fun ig => if stage_eqb (snd ig) g then Some (fst ig) else None)
                    (stages nb)).

(** The cells that show a field of [x]. *)
Definition cells_showing (x : string) (nb : list cell) : list nat :=
  omap (fun c => if existsb (shows_field_of x) (snd c) then Some (fst c) else None)
       (code_cells nb).

(** The cells that read the name [x] at all. *)
Definition cells_reading (x : string) (nb : list cell) : list nat :=
  omap (fun c => if existsb (fun s => bool_decide (x ∈ reads s)) (snd c)
                 then Some (fst c) else None)
       (code_cells nb).

End Audit.
Import Audit.

(* ===================================================================== *)
(** ** The URDF model *)
(* ===================================================================== *)

Module Urdf.

Inductive joint_type : Type :=
| Fixed | Floating | Revolute | Continuous | Prismatic | Planar.

Record joint : Type := Joint {
  joint_name : string;
  joint_kind : joint_type;
  parent : string;
  child : string }.

Record robot : Type := Robot {
  links : list string;
  joints : list joint }.

(** Modelled from the spec: the file [two_bodies.urdf] that cell 10 loads
    is not among the sources.  Its links and joints are taken from the
    notebook's own description of it (markdown cell 1: three links, [world]
    acting as the fixed root, [body_one] connected with [world] via
    [fixed_joint], [body_two] related to [world] via [floating_joint]) and
    from section 3 of the specification (joints of type fixed or floating,
    with parent and child link references). *)
Definition two_bodies : robot :=
  {| links := ["world"; "body_one"; "body_two"];
     joints :=
       [ {| joint_name := "fixed_joint"; joint_kind := Fixed;
            parent := "world"; child := "body_one" |};
         {| joint_name := "floating_joint"; joint_kind := Floating;
            parent := "world"; child := "body_two" |} ] |}.

(** The joints whose child is the link [l]. *)
Definition parent_joints (r : robot) (l : string) : list joint :=
  filter (fun j => child j = l) (joints r).

(** [below r a b]: a chain of one or more joints leads from [a] down
    to [b]. *)
Inductive below (r : robot) : string -> string -> Prop :=
| below_joint j : j ∈ joints r -> below r (parent j) (child j)
| below_chain a b c : below r a b -> below r b c -> below r a c.

(** The joint graph is a tree with root [root]: joints connect declared
    links, the root has no parent joint, every other link has exactly
    one, every other link hangs below the root, and no link is below
    itself. *)
Definition tree_rooted_at (r : robot) (root : string) : Prop :=
  NoDup (links r)
  /\ root ∈ links r
  /\ (forall j, j ∈ joints r -> parent j ∈ links r /\ child j ∈ links r)
  /\ parent_joints r root = []
  /\ (forall l, l ∈ links r -> l <> root -> length (parent_joints r l) = 1)
  /\ (forall l, l ∈ links r -> l <> root -> below r root l)
  /\ (forall l, ~ below r l l).

(** The same conditions as a computation: walk up from each link, at most
    [length (links r)] joints, and arrive at the root. *)
Fixpoint climbs (r : robot) (root : string) (fuel : nat) (l : string) : bool :=
  if bool_decide (l = root) then true
  else match fuel, parent_joints r l with
       | S n, [j] => climbs r root n (parent j)
       | _, _ => false
       end.

(** How many joints up the root is. *)
Fixpoint depth (r : robot) (root : string) (fuel : nat) (l : string)
    : option nat :=
  if bool_decide (l = root) then Some 0
  else match fuel, parent_joints r l with
       | S n, [j] => S <$> depth r root n (parent j)
       | _, _ => None
       end.

Definition tree_check (r : robot) (root : string) : bool :=
  bool_decide (NoDup (links r))
  && bool_decide (root ∈ links r)
  && forallb (fun j => bool_decide (parent j ∈ links r)
                       && bool_decide (child j ∈ links r)) (joints r)
  && bool_decide (parent_joints r root = [])
  && forallb (climbs r root (length (links r))) (links r).

End Urdf.

(* ===================================================================== *)
(** ** Running the notebook *)
(* ===================================================================== *)

Module Run.

(** An exception, by the name of its class and its message. *)
Record exn : Type := Exn { exn_class : string; exn_msg : string }.

Inductive value : Type :=
| VNone
| VBool (b : bool)
| VInt (n : Z)
| VFloat (mantissa exponent : Z)
| VStr (s : string)
| VList (vs : list value)
| VTuple (vs : list value)
| VBuiltin (name : string)
| VObj (ref : N).

#[global] Instance value_inhabited : Inhabited value := populate VNone.

Inductive result (A : Type) : Type :=
| Ok (a : A)
| Raised (e : exn).
Arguments Ok {A} a.
Arguments Raised {A} e.

(** Everything the notebook delegates: the import system, attribute access
    on objects (properties run library code), calls, indexing, operators,
    truth value and [str] of objects, iteration.  [W] is the state of the
    world outside the interpreter (library objects, files, the viewer). *)
Record library (W : Type) : Type := Library {
  lib_import : string -> option string -> W -> result value * W;
  lib_getattr : value -> string -> W -> result value * W;
  lib_setattr : value -> string -> value -> W -> result unit * W;
  lib_getitem : value -> value -> W -> result value * W;
  lib_setitem : value -> value -> value -> W -> result unit * W;
  lib_call :
    value -> list value -> list (string * value) -> W -> result value * W;
  lib_binop : operator -> value -> value -> W -> result value * W;
  lib_bool : value -> W -> result bool * W;
  lib_str : value -> W -> result string * W;
  lib_iter : value -> W -> result (list value) * W }.
Arguments lib_import {W}.
Arguments lib_getattr {W}.
Arguments lib_setattr {W}.
Arguments lib_getitem {W}.
Arguments lib_setitem {W}.
Arguments lib_call {W}.
Arguments lib_binop {W}.
Arguments lib_bool {W}.
Arguments lib_str {W}.
Arguments lib_iter {W}.

(** Where an operation happens: the syntax node that performs it. *)
Inductive site : Type :=
| AtImport (module : string) (member : option string)
| AtName (id : string)
| AtLoad (e : expr)
| AtStore (target : expr)
| AtUnpack (target : expr)
| AtItem (e : expr)
| AtCall (e : expr)
| AtArith (e : expr)
| AtBool (e : expr)
| AtStr (e : expr).

(** One operation of a run, and the exception it ended with, if any. *)
Record event : Type := Event { at_site : site; raised : option exn }.

Definition failure {A} (r : result A) : option exn :=
  match r with Ok _ => None | Raised e => Some e end.

Definition is_attribute_error (x : exn) : bool :=
  bool_decide (exn_class x = "AttributeError").

Definition constant_value (c : constant) : value :=
  match c with
  | CNone => VNone
  | CBool b => VBool b
  | CInt n => VInt n
  | CFloat m e => VFloat m e
  | CStr s => VStr s
  end.

Definition text_of (v : value) : string :=
  match v with VStr s => s | _ => "" end.

Definition newline : string := String "010"%char "".

Fixpoint join (sep : string) (ss : list string) : string :=
  match ss with
  | [] => ""
  | [s] => s
  | s :: ss => s +:+ sep +:+ join sep ss
  end.

Section Interpreter.

Context {W : Type} (L : library W).

Record state : Type := State {
  env : gmap string value;
  world : W;
  trace : list event;
  stdout : list string }.

(** The state-and-exception monad of the interpreter. *)
Definition M (A : Type) : Type := state -> result A * state.

Definition ret {A} (a : A) : M A := fun st => (Ok a, st).

Definition bind {A B} (m : M A) (f : A -> M B) : M B :=
  fun st =>
    match m st with
    | (Ok a, st') => f a st'
    | (Raised e, st') => (Raised e, st')
    end.

Notation "'let!' x ':=' m 'in' f" := (bind m (fun x => f))
  (at level 10, x name, m at level 100, f at level 200, only parsing).

Definition mapM {A B} (f : A -> M B) : list A -> M (list B) :=
  fix go l :=
    match l with
    | [] => ret []
    | a :: l => let! b := f a in let! bs := go l in ret (b :: bs)
    end.

(** Perform the operation [op] on the world at site [s]; the event is
    recorded whether it returns or raises. *)
Definition perform {A} (s : site) (op : W -> result A * W) : M A :=
  fun st =>
    let '(r, w) := op (world st) in
    (r, {| env := env st; world := w;
           trace := trace st ++ [Event s (failure r)];
           stdout := stdout st |}).

Definition store_name (x : string) (v : value) : M unit :=
  fun st =>
    (Ok tt, {| env := <[x := v]> (env st); world := world st;
               trace := trace st; stdout := stdout st |}).

Definition write (s : string) : M unit :=
  fun st =>
    (Ok tt, {| env := env st; world := world st;
               trace := trace st; stdout := stdout st ++ [s] |}).

(** Name lookup: the session's variables, then the builtins, else
    [NameError]. *)
Definition resolve (x : string) (st : state) : result value :=
  match env st !! x with
  | Some v => Ok v
  | None =>
      if bool_decide (x ∈ builtins) then Ok (VBuiltin x)
      else Raised (Exn "NameError" x)
  end.

Definition load_name (x : string) : M value :=
  fun st => perform (AtName x) (fun w => (resolve x st, w)) st.

(** The truth value of [v]: the interpreter's for plain values, the
    object's own ([__bool__]) otherwise. *)
Definition truth_op (v : value) (w : W) : result bool * W :=
  match v with
  | VNone => (Ok false, w)
  | VBool b => (Ok b, w)
  | VInt n => (Ok (negb (Z.eqb n 0)), w)
  | VFloat m _ => (Ok (negb (Z.eqb m 0)), w)
  | VStr s => (Ok (negb (bool_decide (s = ""))), w)
  | VList vs | VTuple vs => (Ok (negb (bool_decide (vs = []))), w)
  | VBuiltin _ => (Ok true, w)
  | VObj _ => lib_bool L v w
  end.

(** [str(v)]: a string is itself, anything else is formatted by its own
    [__str__]. *)
Definition str_op (v : value) (w : W) : result string * W :=
  match v with
  | VStr s => (Ok s, w)
  | _ => lib_str L v w
  end.

(** [print(v1, ..., vn)]: the arguments' [str], joined by a space, and a
    newline. *)
Fixpoint strs_op (vs : list value) (w : W) : result (list string) * W :=
  match vs with
  | [] => (Ok [], w)
  | v :: vs =>
      match str_op v w with
      | (Ok s, w') =>
          match strs_op vs w' with
          | (Ok ss, w'') => (Ok (s :: ss), w'')
          | (Raised e, w'') => (Raised e, w'')
          end
      | (Raised e, w') => (Raised e, w')
      end
  end.

Definition builtin_print (e : expr) (vs : list value) : M value :=
  let! ss := perform (AtCall e) (strs_op vs) in
  let! _ := write (join " " ss +:+ newline) in
  ret VNone.

(** [hasattr(o, a)] looks the attribute up and answers whether it was
    found.  By Python's definition of [hasattr] a lookup that ends in
    [AttributeError] is the answer [False]; any other exception of the
    lookup is raised by the call. *)
Definition hasattr_answer (r : result value) : result value :=
  match r with
  | Ok _ => Ok (VBool true)
  | Raised x => if is_attribute_error x then Ok (VBool false) else Raised x
  end.

Definition hasattr_op (o : value) (a : string) (w : W) : result value * W :=
  let '(r, w') := lib_getattr L o a w in (hasattr_answer r, w').

Definition builtin_hasattr (e : expr) (o : value) (a : string) : M value :=
  perform (AtCall e) (hasattr_op o a).

(** A call of a builtin is the interpreter's: [print] with positional
    arguments, [hasattr] with an object and a string.  Every other call
    (a builtin called some other way included) is the environment's. *)
Inductive dispatch : Type :=
| ToPrint
| ToHasattr (o : value) (a : string)
| ToLibrary.

Definition dispatch_of (fv : value) (avs : list value)
    (kvs : list (string * value)) : dispatch :=
  match fv, kvs with
  | VBuiltin b, [] =>
      if bool_decide (b = "print") then ToPrint
      else if bool_decide (b = "hasattr") then
        match avs with
        | [o; VStr a] => ToHasattr o a
        | _ => ToLibrary
        end
      else ToLibrary
  | _, _ => ToLibrary
  end.

Definition call (e : expr) (fv : value) (avs : list value)
    (kvs : list (string * value)) : M value :=
  match dispatch_of fv avs kvs with
  | ToPrint => builtin_print e avs
  | ToHasattr o a => builtin_hasattr e o a
  | ToLibrary => perform (AtCall e) (lib_call L fv avs kvs)
  end.

Fixpoint eval (e : expr) : M value :=
  match e with
  | Constant c => ret (constant_value c)
  | Name x => load_name x
  | Attribute v a =>
      let! o := eval v in
      perform (AtLoad e) (lib_getattr L o a)
  | Subscript v s =>
      let! o := eval v in
      let! i := eval s in
      perform (AtItem e) (lib_getitem L o i)
  | Call f args kws =>
      let! fv := eval f in
      let! avs := mapM eval args in
      let! kvs :=
        mapM (fun kw => let! v := eval (snd kw) in ret (fst kw, v)) kws in
      call e fv avs kvs
  | BinOp l op r =>
      let! a := eval l in
      let! b := eval r in
      perform (AtArith e) (lib_binop L op a b)
  | BoolOp And l r =>
      let! a := eval l in let! t := perform (AtBool l) (truth_op a) in
      if t : bool then eval r else ret a
  | BoolOp Or l r =>
      let! a := eval l in let! t := perform (AtBool l) (truth_op a) in
      if t : bool then ret a else eval r
  | IfExp c a b =>
      let! v := eval c in let! t := perform (AtBool c) (truth_op v) in
      if t : bool then eval a else eval b
  | ListE es => let! vs := mapM eval es in ret (VList vs)
  | TupleE es => let! vs := mapM eval es in ret (VTuple vs)
  | JoinedStr es =>
      let! vs := mapM eval es in
      ret (VStr (String.concat "" (text_of <$> vs)))
  | FormattedValue v =>
      let! x := eval v in let! s := perform (AtStr e) (str_op x) in ret (VStr s)
  end.

(** Unpacking [v] into [n] targets: a tuple or list is taken apart by the
    interpreter, anything else is iterated; the wrong number of items is
    a [ValueError], so [assign] below always finds one value per target. *)
Definition unpack_op (n : nat) (v : value) (w : W) : result (list value) * W :=
  let '(r, w') :=
    match v with
    | VTuple vs | VList vs => (Ok vs, w)
    | _ => lib_iter L v w
    end in
  match r with
  | Ok vs =>
      if bool_decide (length vs = n) then (Ok vs, w')
      else (Raised (Exn "ValueError" "unpack"), w')
  | Raised x => (Raised x, w')
  end.

Fixpoint assign (t : expr) (v : value) : M unit :=
  match t with
  | Name x => store_name x v
  | Attribute o a =>
      let! ov := eval o in perform (AtStore t) (lib_setattr L ov a v)
  | Subscript o i =>
      let! ov := eval o in let! iv := eval i in
      perform (AtStore t) (lib_setitem L ov iv v)
  | TupleE ts | ListE ts =>
      let! vs := perform (AtUnpack t) (unpack_op (length ts) v) in
      (fix go (ts : list expr) (vs : list value) : M unit :=
         match ts with
         | t :: ts => let! _ := assign t (hd VNone vs) in go ts (tl vs)
         | [] => ret tt
         end) ts vs
  | _ => ret tt
  end.

(** What can stand on the left of [=]. *)
Fixpoint assignable (t : expr) : bool :=
  match t with
  | Name _ | Attribute _ _ | Subscript _ _ => true
  | TupleE ts | ListE ts => forallb assignable ts
  | _ => false
  end.

(** [import a.b] imports [a], then [a.b], and binds [a]; with [as x] it
    binds [x] to [a.b]; [from m import n] binds [n] to the member. *)
Definition exec_import (m : string) (asname : option string) : M unit :=
  match asname with
  | Some a => let! v := perform (AtImport m None) (lib_import L m None) in
              store_name a v
  | None =>
      let top := top_package m in
      let! v := perform (AtImport top None) (lib_import L top None) in
      let! _ := (if bool_decide (top = m) then ret v
                 else perform (AtImport m None) (lib_import L m None)) in
      store_name top v
  end.

Definition exec_import_from (m n : string) (asname : option string) : M unit :=
  let! v := perform (AtImport m (Some n)) (lib_import L m (Some n)) in
  store_name (default n asname) v.

(** The statement forms the interpreter covers are those the notebook is
    written in; on any other form the run stops as [Unsupported]. *)
Definition exec_stmt (s : stmt) : option (M unit) :=
  match s with
  | Import m a => Some (exec_import m a)
  | ImportFrom m n a => Some (exec_import_from m n a)
  | Assign t v =>
      if assignable t then Some (let! x := eval v in assign t x) else None
  | Expr v => Some (let! _ := eval v in ret tt)
  | Pass => Some (ret tt)
  | _ => None
  end.

Inductive outcome : Type :=
| Finished
| Failed (e : exn)
| Unsupported (s : stmt).

(** Statements run in order; the first exception ends the run. *)
Fixpoint exec (p : list stmt) (st : state) : outcome * state :=
  match p with
  | [] => (Finished, st)
  | s :: p' =>
      match exec_stmt s with
      | None => (Unsupported s, st)
      | Some m =>
          match m st with
          | (Ok _, st') => exec p' st'
          | (Raised e, st') => (Failed e, st')
          end
      end
  end.

(** The statements [exec] does not stop at. *)
Definition covered (s : stmt) : bool :=
  match s with
  | Import _ _ | ImportFrom _ _ _ | Expr _ | Pass => true
  | Assign t _ => assignable t
  | _ => false
  end.

Definition initial (w : W) : state :=
  {| env := ∅; world := w; trace := []; stdout := [] |}.

(** Restart and run all: a fresh session, the code cells top to bottom.
    (What the kernel displays for the value of a cell's last expression
    is not modelled, only its evaluation.) *)
Definition run (nb : list cell) (w : W) : outcome * state :=
  exec (program nb) (initial w).

End Interpreter.

Arguments state W : clear implicits.

(** *** The operations a run can go through *)

(** All ways to follow a path of [P] by a path of [Q]. *)
Definition seqs (P Q : list (list site)) : list (list site) :=
  flat_map (fun p => map (app p) Q) P.

Definition seq_all (Ps : list (list (list site))) : list (list site) :=
  foldr seqs [[]] Ps.

Arguments seqs : simpl never.
Arguments seq_all : simpl never.

(** The complete sequences of sites an evaluation of [e] can go through
    when nothing raises.  The only choice is at [and], [or] and the
    conditional expression. *)
Fixpoint paths (e : expr) : list (list site) :=
  match e with
  | Constant _ => [[]]
  | Name x => [[AtName x]]
  | Attribute v _ => seqs (paths v) [[AtLoad e]]
  | Subscript v s => seqs (paths v) (seqs (paths s) [[AtItem e]])
  | Call f args kws =>
      seqs (paths f)
        (seqs (seq_all (paths <$> args))
           (seqs (seq_all ((fun kw => paths (snd kw)) <$> kws))
              [[AtCall e]]))
  | BinOp l _ r => seqs (paths l) (seqs (paths r) [[AtArith e]])
  | BoolOp _ l r => seqs (paths l) (seqs [[AtBool l]] ([] :: paths r))
  | IfExp c a b => seqs (paths c) (seqs [[AtBool c]] (paths a ++ paths b))
  | ListE es | TupleE es | JoinedStr es => seq_all (paths <$> es)
  | FormattedValue v => seqs (paths v) [[AtStr e]]
  end.

Fixpoint target_paths (t : expr) : list (list site) :=
  match t with
  | Attribute o _ => seqs (paths o) [[AtStore t]]
  | Subscript o i => seqs (paths o) (seqs (paths i) [[AtStore t]])
  | TupleE ts | ListE ts =>
      seqs [[AtUnpack t]] (seq_all (target_paths <$> ts))
  | _ => [[]]
  end.

Definition stmt_paths (s : stmt) : list (list site) :=
  match s with
  | Import m (Some _) => [[AtImport m None]]
  | Import m None =>
      let top := top_package m in
      if bool_decide (top = m) then [[AtImport top None]]
      else [[AtImport top None; AtImport m None]]
  | ImportFrom m n _ => [[AtImport m (Some n)]]
  | Assign t v => seqs (paths v) (target_paths t)
  | Expr v => paths v
  | _ => [[]]
  end.

Definition program_paths (p : list stmt) : list (list site) :=
  seq_all (stmt_paths <$> p).

(** The path on which every [and], [or] and conditional expression goes
    the same way: with [right] it evaluates its right operand (its first
    branch), without it does not. *)
Fixpoint route (right : bool) (e : expr) : list site :=
  match e with
  | Constant _ => []
  | Name x => [AtName x]
  | Attribute v _ => route right v ++ [AtLoad e]
  | Subscript v s => route right v ++ route right s ++ [AtItem e]
  | Call f args kws =>
      route right f ++ concat (route right <$> args)
        ++ concat ((fun kw => route right (snd kw)) <$> kws) ++ [AtCall e]
  | BinOp l _ r => route right l ++ route right r ++ [AtArith e]
  | BoolOp _ l r =>
      route right l ++ [AtBool l] ++ (if right then route right r else [])
  | IfExp c a b =>
      route right c ++ [AtBool c]
        ++ (if right then route right a else route right b)
  | ListE es | TupleE es | JoinedStr es => concat (route right <$> es)
  | FormattedValue v => route right v ++ [AtStr e]
  end.

Fixpoint target_route (right : bool) (t : expr) : list site :=
  match t with
  | Attribute o _ => route right o ++ [AtStore t]
  | Subscript o i => route right o ++ route right i ++ [AtStore t]
  | TupleE ts | ListE ts => AtUnpack t :: concat (target_route right <$> ts)
  | _ => []
  end.

Definition stmt_route (right : bool) (s : stmt) : list site :=
  match s with
  | Import m (Some _) => [AtImport m None]
  | Import m None =>
      let top := top_package m in
      if bool_decide (top = m) then [AtImport top None]
      else [AtImport top None; AtImport m None]
  | ImportFrom m n _ => [AtImport m (Some n)]
  | Assign t v => route right v ++ target_route right t
  | Expr v => route right v
  | _ => []
  end.

Definition program_route (right : bool) (p : list stmt) : list site :=
  concat (stmt_route right <$> p).

Definition sites (t : list event) : list site := at_site <$> t.

(** *** What a run adds to the trace *)

(** Nothing was raised at the event. *)
Definition quiet (ev : event) : Prop := raised ev = None.

(** [l] is what a computation that ended in [r] added to the trace, given
    the paths [P] it can take: a whole path with nothing raised on the way
    when it returned; when it raised [x], the beginning of a path, [x]
    raised by the last operation and nothing raised before. *)
Definition accounts {A} (P : list (list site)) (r : result A)
    (l : list event) : Prop :=
  match r with
  | Ok _ => Forall quiet l /\ sites l ∈ P
  | Raised x =>
      exists l' ev,
        l = l' ++ [ev] /\ Forall quiet l' /\ raised ev = Some x
        /\ exists p, p ∈ P /\ sites l `prefix_of` p
  end.

Definition follows {W A} (m : M (W := W) A) (P : list (list site)) : Prop :=
  P <> [] /\
  forall st, exists l,
    trace (snd (m st)) = trace st ++ l /\ accounts P (fst (m st)) l.

(** The same account for a whole run. *)
Definition explains (P : list (list site)) (o : outcome) (l : list event)
    : Prop :=
  match o with
  | Finished => Forall quiet l /\ sites l ∈ P
  | Failed x =>
      exists l' ev,
        l = l' ++ [ev] /\ Forall quiet l' /\ raised ev = Some x
        /\ exists p, p ∈ P /\ sites l `prefix_of` p
  | Unsupported _ => False
  end.

(** *** Names *)

(** The names satisfying [P] can be looked up in [st]. *)
Definition all_found {W} (P : string -> Prop) (st : state W) : Prop :=
  forall x, P x -> exists v, resolve x st = Ok v.

(** The event is not a failed name lookup. *)
Definition name_found (ev : event) : Prop :=
  match at_site ev with AtName _ => raised ev = None | _ => True end.

(** From a state in which the names [P] can be looked up, [m] binds
    nothing and every name it looks up is found. *)
Definition reads_only {W A} (P : string -> Prop) (m : M (W := W) A) : Prop :=
  forall st, all_found P st ->
    env (snd (m st)) = env st
    /\ exists l, trace (snd (m st)) = trace st ++ l /\ Forall name_found l.

(** What can be looked up in [st] can be looked up in [st']. *)
Definition grows {W} (st st' : state W) : Prop :=
  forall x, (exists v, resolve x st = Ok v) -> exists v, resolve x st' = Ok v.

(** As [reads_only], but [m] may bind names, and binds [xs] when it
    returns. *)
Definition binds_names {W A} (P : string -> Prop) (xs : list string)
    (m : M (W := W) A) : Prop :=
  forall st, all_found P st ->
    grows st (snd (m st))
    /\ (exists l, trace (snd (m st)) = trace st ++ l /\ Forall name_found l)
    /\ (forall u, fst (m st) = Ok u -> all_found (fun x => x ∈ xs) (snd (m st))).

End Run.
Import Run.

(* ===================================================================== *)
(** ** Libraries to run the notebook against *)
(* ===================================================================== *)

(** A library that computes nothing and only names what it is asked for:
    the object a call of [pinocchio.neutral] returns is called
    ["pinocchio.neutral()"].  The world is the list of the names of the
    objects handed out so far, [VObj r] being the [r]-th.  [fault] says
    which of these operations raise, and what. *)
Module Symbolic.

Definition objects : Type := list string.

Definition describe (w : objects) (v : value) : string :=
  match v with
  | VObj r => default "?" (w !! N.to_nat r)
  | VStr s => s
  | VBuiltin b => b
  | _ => "_"
  end.

Definition fresh (fault : string -> option exn) (name : string) (w : objects)
    : result value * objects :=
  match fault name with
  | Some x => (Raised x, w)
  | None => (Ok (VObj (N.of_nat (length w))), w ++ [name])
  end.

Definition effect (fault : string -> option exn) (name : string) (w : objects)
    : result unit * objects :=
  match fault name with
  | Some x => (Raised x, w)
  | None => (Ok tt, w)
  end.

Definition operator_name (op : operator) : string :=
  match op with Add => "+" | Sub => "-" | Mult => "*" | Div => "/" end.

Definition symbolic (fault : string -> option exn) : library objects :=
  {| lib_import m n :=
       fresh fault (match n with None => m | Some n => m +:+ "." +:+ n end);
     lib_getattr o a w := fresh fault (describe w o +:+ "." +:+ a) w;
     lib_setattr o a _ w := effect fault (describe w o +:+ "." +:+ a +:+ "=") w;
     lib_getitem o _ w := fresh fault (describe w o +:+ "[]") w;
     lib_setitem o _ _ w := effect fault (describe w o +:+ "[]=") w;
     lib_call f _ _ w := fresh fault (describe w f +:+ "()") w;
     lib_binop op a b w :=
       fresh fault (describe w a +:+ operator_name op +:+ describe w b) w;
     lib_bool v w := (Ok true, w);
     lib_str v w :=
       match fault ("str(" +:+ describe w v +:+ ")") with
       | Some x => (Raised x, w)
       | None => (Ok ("<" +:+ describe w v +:+ ">"), w)
       end;
     lib_iter v w :=
       match fault ("iter(" +:+ describe w v +:+ ")") with
       | Some x => (Raised x, w)
       | None =>
           let n := N.of_nat (length w) in
           (Ok [VObj n; VObj (n + 1); VObj (n + 2)],
            w ++ [describe w v +:+ "[0]"; describe w v +:+ "[1]";
                  describe w v +:+ "[2]"])
       end |}.

(** Nothing fails. *)
Definition no_fault (name : string) : option exn := None.

(** The viewer has no [jupyter_cell] (a meshcat without notebook support). *)
Definition no_jupyter_cell (name : string) : option exn :=
  if bool_decide (name = "pinocchio.visualize.MeshcatVisualizer().viewer.jupyter_cell")
  then Some (Exn "AttributeError" "'Visualizer' object has no attribute 'jupyter_cell'")
  else None.

(** [two_bodies.urdf] is not where [MODEL_PATH] says. *)
Definition missing_urdf (name : string) : option exn :=
  if bool_decide (name = "pinocchio.buildModelsFromUrdf()")
  then Some (Exn "ValueError" "The file two_bodies.urdf does not exist")
  else None.

End Symbolic.

(* ===================================================================== *)
(** ** Properties of a notebook *)
(* ===================================================================== *)

(** Whatever an operation of a run raises is what the run fails with. *)
Definition every_exception_propagates (nb : list cell) : Prop :=
  forall (W : Type) (L : library W) (w : W) (ev : event) (x : exn),
    ev ∈ trace (snd (run L nb w)) ->
    raised ev = Some x ->
    fst (run L nb w) = Failed x.

(** A run in which every exception propagates: a run that finished raised
    nothing; a run that failed with [x] had [x] raised by its last
    operation, unchanged, and nothing raised before. *)
Definition propagates (o : outcome) (t : list event) : Prop :=
  match o with
  | Finished => Forall quiet t
  | Failed x =>
      exists t' ev, t = t' ++ [ev] /\ Forall quiet t' /\ raised ev = Some x
  | Unsupported _ => False
  end.

(** Only simple statements, and no expression that chooses what to
    evaluate. *)
Definition straight_line (nb : list cell) : bool :=
  forallb simple (every_stmt nb)
  && forallb (fun e => negb (conditional e)) (every_expr nb).

(** Any two runs that finish went through the same operations. *)
Definition fixed_operations (nb : list cell) : Prop :=
  forall (W1 : Type) (L1 : library W1) (w1 : W1)
         (W2 : Type) (L2 : library W2) (w2 : W2),
    fst (run L1 nb w1) = Finished ->
    fst (run L2 nb w2) = Finished ->
    sites (trace (snd (run L1 nb w1))) = sites (trace (snd (run L2 nb w2))).

(** A run went along the route [r]: all of it when it finished, a
    beginning of it when it failed. *)
Definition along (r : list site) (o : outcome) (t : list event) : Prop :=
  match o with
  | Finished => sites t = r
  | Failed _ => sites t `prefix_of` r
  | Unsupported _ => False
  end.

(** The operations of [viz.viewer.jupyter_cell()], the right operand of
    the [and] of cell 12. *)
Definition jupyter_call_sites : list site :=
  [ AtName "viz"; AtLoad ($"viz" # "viewer");
    AtLoad ($"viz" # "viewer" # "jupyter_cell"); AtCall jupyter_call ].

(** The names and attributes through which a Python program reaches its
    command line, its environment variables, its standard input or a file
    of its own. *)
Definition interface_names : list string :=
  ["sys"; "argv"; "argparse"; "environ"; "getenv"; "putenv"; "input";
   "open"; "write"; "save"; "dump"; "export"; "subprocess"; "socket"].

Definition mentions (words : list string) (nb : list cell) : list string :=
  filter (fun x => x ∈ words)
         (omap name_of (every_expr nb) ++ omap attr_of (every_expr nb)
            ++ imports nb).

(** The names the notebook reads without binding them anywhere. *)
Definition free_names (nb : list cell) : list string :=
  remove_dups
    (filter (fun x => x ∉ flat_map binds (program nb))
            (flat_map reads (program nb))).

(** The string constants of the notebook. *)
Definition string_constants (nb : list cell) : list string :=
  remove_dups (omap str_of (every_expr nb)).

(** The notebook without cell [n]. *)
Definition without_cell (n : nat) (nb : list cell) : list cell :=
  take n nb ++ drop (S n) nb.

(** The callees of the notebook, each once. *)
Definition distinct_calls (nb : list cell) : list (list string) :=
  remove_dups (calls nb).

(* ===================================================================== *)
(** ** Properties of a session *)
(* ===================================================================== *)

(** *** Variables *)

(** [m] binds no name. *)
Definition keeps_env {W A} (m : M (W := W) A) : Prop :=
  forall st, env (snd (m st)) = env st.

(** [m] unbinds nothing, binds no name outside [xs], and binds all of [xs]
    when it returns. *)
Definition binds_exactly {W A} (xs : list string) (m : M (W := W) A) : Prop :=
  forall st,
    dom (env st) ⊆ dom (env (snd (m st)))
    /\ dom (env (snd (m st))) ⊆ dom (env st) ∪ list_to_set xs
    /\ (forall a, fst (m st) = Ok a -> list_to_set xs ⊆ dom (env (snd (m st)))).

(** A target whose assignment binds all of its names or none: a name, a
    field or an item of an object, or a tuple of names. *)
Definition plain_target (t : expr) : bool :=
  match t with
  | Name _ | Attribute _ _ | Subscript _ _ => true
  | TupleE ts | ListE ts => forallb (fun t => bool_decide (is_Some (name_of t))) ts
  | _ => false
  end.

Definition binds_at_once (s : stmt) : bool :=
  match s with
  | Import _ _ | ImportFrom _ _ _ | Expr _ | Pass => true
  | Assign t _ => plain_target t
  | _ => false
  end.

(** [m] binds the names [xs] when it returns and nothing when it raises. *)
Definition all_or_nothing {W A} (xs : list string) (m : M (W := W) A) : Prop :=
  forall st,
    match fst (m st) with
    | Ok _ => dom (env (snd (m st))) = dom (env st) ∪ list_to_set xs
    | Raised _ => env (snd (m st)) = env st
    end.

(** The names a notebook binds, each once. *)
Definition variables (nb : list cell) : list string :=
  remove_dups (flat_map binds (program nb)).

(** The variable [x] is bound after the run that ended in [st]. *)
Definition bound {W} (st : state W) (x : string) : Prop := is_Some (env st !! x).

(** The names bound by the first [k] statements. *)
Definition bound_by (k : nat) (nb : list cell) : list string :=
  flat_map binds (take k (program nb)).

(** *** The probe of an attribute *)

(** A call [hasattr(o, 'a')]. *)
Definition is_probe (e : expr) : bool :=
  match e with
  | Call (Name f) [_; Constant (CStr _)] [] => bool_decide (f = "hasattr")
  | _ => false
  end.

(** What a probe does with a missing attribute: the call does not end in
    [AttributeError], and taking the truth of its answer raises nothing. *)
Definition probe_answered (ev : event) : Prop :=
  match at_site ev with
  | AtCall e =>
      is_probe e = true ->
      forall x, raised ev = Some x -> is_attribute_error x = false
  | AtBool e => is_probe e = true -> raised ev = None
  | _ => True
  end.

(** What is known of the value of [e] while [hasattr] is the builtin. *)
Definition answer (e : expr) (v : value) : Prop :=
  match e with
  | Constant c => v = constant_value c
  | Name x => x = "hasattr" -> v = VBuiltin x
  | _ => is_probe e = true -> exists b, v = VBool b
  end.

(** From a state in which [hasattr] is the builtin, [m] leaves it so,
    every probe it makes is answered, and what it returns satisfies [Q]. *)
Definition probing {W A} (Q : A -> Prop) (m : M (W := W) A) : Prop :=
  forall st, env st !! "hasattr" = None ->
    env (snd (m st)) !! "hasattr" = None
    /\ (exists l, trace (snd (m st)) = trace st ++ l /\ Forall probe_answered l)
    /\ (forall a, fst (m st) = Ok a -> Q a).

(** *** Operations of a run, by what they act on *)

(** A call of the callee with the dotted path [path], a read and a store
    of the attribute with that path. *)
Definition is_call_of (path : list string) (s : site) : bool :=
  match s with
  | AtCall (Call f _ _) => bool_decide (dotted f = path)
  | _ => false
  end.

Definition is_load_of (path : list string) (s : site) : bool :=
  match s with AtLoad e => bool_decide (dotted e = path) | _ => false end.

Definition is_store_of (path : list string) (s : site) : bool :=
  match s with AtStore e => bool_decide (dotted e = path) | _ => false end.

(** How many operations of kind [c] there are in [l]. *)
Definition times (c : site -> bool) (l : list site) : nat :=
  length (List.filter c l).

(** Whenever a run got to an operation of kind [b], an operation of kind
    [a] had been performed before, and had returned. *)
Definition done_before (a b : site -> bool) (t : list event) : Prop :=
  forall t1 ev t2,
    t = t1 ++ ev :: t2 -> b (at_site ev) = true ->
    Exists (fun ev' => a (at_site ev') = true /\ raised ev' = None) t1.

(** The same, checked on a route: [seen] says whether an operation of kind
    [a] has been passed. *)
Fixpoint passes (a b : site -> bool) (seen : bool) (r : list site) : bool :=
  match r with
  | [] => true
  | s :: r => (negb (b s) || seen) && passes a b (seen || a s) r
  end.

(** *** What is printed *)

(** A value with no builtin function in it. *)
Fixpoint plain (v : value) : bool :=
  match v with
  | VBuiltin _ => false
  | VList vs | VTuple vs => forallb plain vs
  | _ => true
  end.

(** A library that hands out no builtin function of the interpreter: its
    objects, and what they are made of, are its own. *)
Record plain_library {W} (L : library W) : Prop := PlainLibrary {
  plain_import : forall m n w v, fst (lib_import L m n w) = Ok v -> plain v = true;
  plain_getattr : forall o a w v, fst (lib_getattr L o a w) = Ok v -> plain v = true;
  plain_getitem : forall o i w v, fst (lib_getitem L o i w) = Ok v -> plain v = true;
  plain_call :
    forall f avs kvs w v, fst (lib_call L f avs kvs w) = Ok v -> plain v = true;
  plain_binop :
    forall op a b w v, fst (lib_binop L op a b w) = Ok v -> plain v = true;
  plain_iter :
    forall v w vs, fst (lib_iter L v w) = Ok vs -> forallb plain vs = true }.

(** The session's variables hold no builtin, and [print] is the builtin. *)
Definition session_ok (E : gmap string value) : Prop :=
  E !! "print" = None /\ forall x v, E !! x = Some v -> plain v = true.

(** An expression that does not print: it does not call [print] by name,
    and reads a builtin only to call it. *)
Fixpoint tame (e : expr) : bool :=
  match e with
  | Constant _ => true
  | Name x => negb (bool_decide (x ∈ builtins))
  | Attribute v _ => tame v
  | Subscript v s => tame v && tame s
  | Call f args kws =>
      match f with
      | Name x => negb (bool_decide (x = "print"))
      | _ => tame f
      end
      && forallb tame args && forallb (fun kw => tame (snd kw)) kws
  | BinOp l _ r => tame l && tame r
  | BoolOp _ l r => tame l && tame r
  | IfExp c a b => tame c && tame a && tame b
  | ListE es | TupleE es | JoinedStr es => forallb tame es
  | FormattedValue v => tame v
  end.

Fixpoint tame_target (t : expr) : bool :=
  match t with
  | Name _ => true
  | Attribute o _ => tame o
  | Subscript o i => tame o && tame i
  | TupleE ts | ListE ts => forallb tame_target ts
  | _ => false
  end.

(** The arguments of a statement [print(...)]. *)
Definition printed (s : stmt) : option (list expr) :=
  match s with
  | Expr (Call (Name f) args []) =>
      if bool_decide (f = "print") then Some args else None
  | _ => None
  end.

(** A statement whose only output is that of a [print] it is. *)
Definition plainly (s : stmt) : bool :=
  match printed s with
  | Some args => forallb tame args
  | None =>
      match s with
      | Expr e => tame e
      | Assign t v => tame v && tame_target t
      | Import _ _ | ImportFrom _ _ _ | Pass => true
      | _ => false
      end
  end.

(** The [print] statements of a notebook, by their arguments. *)
Definition outputs (nb : list cell) : list (list expr) :=
  omap printed (program nb).

(** [s] is made of the pieces [t] in order, a piece [Some lit] being the
    text [lit] and a piece [None] any text. *)
Definition fills (t : list (option string)) (s : string) : Prop :=
  exists ss,
    Forall2 (fun p s => forall lit, p = Some lit -> s = lit) t ss
    /\ s = String.concat "" ss.

(** The pieces of the text of an argument of [print]: a string literal is
    itself, an f-string is its literal parts around the text of its
    formatted values, anything else is formatted by its own [__str__]. *)
Definition arg_template (e : expr) : list (option string) :=
  match e with
  | JoinedStr es => str_of <$> es
  | _ => [str_of e]
  end.

(** A line that [print(args)] writes: the texts of the arguments, joined
    by a space, and a newline. *)
Definition prints_line (args : list expr) (line : string) : Prop :=
  exists ss,
    Forall2 (fun a s => fills (arg_template a) s) args ss
    /\ line = join " " ss +:+ newline.

(** What is known of the value of a tame expression [e]. *)
Definition value_of (e : expr) (v : value) : Prop :=
  plain v = true
  /\ match e with
     | Constant c => v = constant_value c
     | JoinedStr es => exists s, v = VStr s /\ fills (str_of <$> es) s
     | _ => True
     end.

(** From a session that is in order, [m] leaves it so and prints nothing,
    and what it returns satisfies [Q]. *)
Definition silent {W A} (Q : A -> Prop) (m : M (W := W) A) : Prop :=
  forall st, session_ok (env st) ->
    session_ok (env (snd (m st)))
    /\ stdout (snd (m st)) = stdout st
    /\ (forall a, fst (m st) = Ok a -> Q a).

(** From a session that is in order, [m] leaves it so and prints the
    lines [outs] when it returns, nothing when it raises. *)
Definition printing {W A} (outs : list (list expr)) (m : M (W := W) A) : Prop :=
  forall st, session_ok (env st) ->
    session_ok (env (snd (m st)))
    /\ exists lines,
         stdout (snd (m st)) = stdout st ++ lines
         /\ match fst (m st) with
            | Ok _ => Forall2 prints_line outs lines
            | Raised _ => lines = []
            end.

(** A library that does hand out a builtin: the [show] of its objects is
    the interpreter's [print]. *)
Definition lends_print : library Symbolic.objects :=
  let S := Symbolic.symbolic Symbolic.no_fault in
  {| lib_import := lib_import S;
     lib_getattr o a w :=
       if bool_decide (a = "show") then (Ok (VBuiltin "print"), w)
       else lib_getattr S o a w;
     lib_setattr := lib_setattr S;
     lib_getitem := lib_getitem S;
     lib_setitem := lib_setitem S;
     lib_call := lib_call S;
     lib_binop := lib_binop S;
     lib_bool := lib_bool S;
     lib_str := lib_str S;
     lib_iter := lib_iter S |}.

(** *** What decides the guard *)

(** Looking [a] up in an object of [L] always ends in [AttributeError]
    (a meshcat without notebook support, for [jupyter_cell]). *)
Definition lacks {W} (L : library W) (a : string) : Prop :=
  forall o w, exists x,
    fst (lib_getattr L o a w) = Raised x /\ is_attribute_error x = true.

(** Looking [a] up in an object of [L] never ends in [AttributeError]. *)
Definition offers {W} (L : library W) (a : string) : Prop :=
  forall o w x,
    fst (lib_getattr L o a w) = Raised x -> is_attribute_error x = false.

(** The library [L] with the attribute [a] taken from its objects. *)
Definition without_attribute {W} (a : string) (L : library W) : library W :=
  {| lib_import := lib_import L;
     lib_getattr o a' w :=
       if bool_decide (a' = a) then (Raised (Exn "AttributeError" a), w)
       else lib_getattr L o a' w;
     lib_setattr := lib_setattr L;
     lib_getitem := lib_getitem L;
     lib_setitem := lib_setitem L;
     lib_call := lib_call L;
     lib_binop := lib_binop L;
     lib_bool := lib_bool L;
     lib_str := lib_str L;
     lib_iter := lib_iter L |}.

(** Cell 12 with nothing to the right of the [and], and cell 12 going on
    to [viz.viewer.jupyter_cell()] whatever the probe answers. *)
Definition cell_12_skipping : list stmt :=
  [ Expr (BoolOp And jupyter_probe (Constant CNone)) ].
Definition cell_12_calling : list stmt :=
  [ Expr (IfExp jupyter_probe jupyter_call jupyter_call) ].

(** The notebook with [c] for cell 12. *)
Definition with_cell_12 (c : list stmt) : list cell :=
  <[12 := Code c]> pin_cheat_list.

(* ===================================================================== *)
(** ** Laws of the interpreter *)
(* ===================================================================== *)

(** Induction over expressions, with the hypothesis for the expressions
    inside argument lists. *)
Lemma expr_nested_ind (P : expr -> Prop) :
  (forall c, P (Constant c)) ->
  (forall x, P (Name x)) ->
  (forall v a, P v -> P (Attribute v a)) ->
  (forall v s, P v -> P s -> P (Subscript v s)) ->
  (forall f args kws,
      P f -> Forall P args -> Forall (fun kw => P (snd kw)) kws ->
      P (Call f args kws)) ->
  (forall l op r, P l -> P r -> P (BinOp l op r)) ->
  (forall op l r, P l -> P r -> P (BoolOp op l r)) ->
  (forall c a b, P c -> P a -> P b -> P (IfExp c a b)) ->
  (forall es, Forall P es -> P (ListE es)) ->
  (forall es, Forall P es -> P (TupleE es)) ->
  (forall es, Forall P es -> P (JoinedStr es)) ->
  (forall v, P v -> P (FormattedValue v)) ->
  forall e, P e.
Proof.
  intros HC HN HA HS HCall HB HBool HIf HL HT HJ HF.
  fix IH 1.
  assert (Hall : forall es, Forall P es).
  { fix IHes 1. intros [|e es]; constructor; [apply IH | apply IHes]. }
  intros [c|x|v a|v s|f args kws|l op r|op l r|c a b|es|es|es|v].
  - apply HC.
  - apply HN.
  - apply HA, IH.
  - apply HS; apply IH.
  - apply HCall; [apply IH | apply Hall |].
    revert kws. fix IHk 1. intros [|[k e] kws]; constructor;
      [apply IH | apply IHk].
  - apply HB; apply IH.
  - apply HBool; apply IH.
  - apply HIf; apply IH.
  - apply HL, Hall.
  - apply HT, Hall.
  - apply HJ, Hall.
  - apply HF, IH.
Qed.

(** *** Paths *)

Lemma seqs_intro (P Q : list (list site)) p q :
  p ∈ P -> q ∈ Q -> p ++ q ∈ seqs P Q.
Proof.
  intros Hp Hq. unfold seqs. apply list_elem_of_In, in_flat_map.
  exists p. split; [by apply list_elem_of_In|].
  apply in_map. by apply list_elem_of_In.
Qed.

Lemma seqs_nonempty (P Q : list (list site)) :
  P <> [] -> Q <> [] -> seqs P Q <> [].
Proof.
  destruct P as [|p P]; [done|]. destruct Q as [|q Q]; [done|]. done.
Qed.

Lemma seq_all_nonempty (Ps : list (list (list site))) :
  Forall (fun P => P <> []) Ps -> seq_all Ps <> [].
Proof.
  induction 1 as [|P Ps HP _ IH]; [done|].
  by apply seqs_nonempty.
Qed.

Lemma paths_nonempty e : paths e <> [].
Proof.
  induction e as [c|x|v a IH|v s IHv IHs|f args kws IHf IHa IHk|l op r IHl IHr
                 |op l r IHl IHr|c a b IHc IHa IHb|es IH|es IH|es IH|v IH]
    using expr_nested_ind; simpl; try done;
    repeat first
      [ apply seqs_nonempty
      | apply seq_all_nonempty, Forall_fmap; simpl
      | done
      | assumption ].
  destruct (paths a); [|done]. by destruct (paths b).
Qed.

Lemma target_paths_nonempty t : target_paths t <> [].
Proof.
  induction t as [c|x|v a IH|v s IHv IHs|f args kws IHf IHa IHk|l op r IHl IHr
                 |op l r IHl IHr|c a b IHc IHa IHb|es IH|es IH|es IH|v IH]
    using expr_nested_ind; simpl; try done;
    repeat first
      [ apply seqs_nonempty
      | apply seq_all_nonempty, Forall_fmap; simpl
      | apply paths_nonempty
      | done
      | assumption ].
Qed.

Lemma stmt_paths_nonempty s : stmt_paths s <> [].
Proof.
  destruct s as [m [a|]|m n a|t v|v| | | | | | | | | | |]; simpl; try done.
  - by case_bool_decide.
  - apply seqs_nonempty; [apply paths_nonempty | apply target_paths_nonempty].
  - apply paths_nonempty.
Qed.

Lemma program_paths_nonempty p : program_paths p <> [].
Proof.
  apply seq_all_nonempty, Forall_fmap, Forall_forall.
  intros s _. apply stmt_paths_nonempty.
Qed.

(** *** What a computation adds to the trace *)

Section Laws.

Context {W : Type} (L : library W).

Lemma follows_ret {A} (a : A) : follows (W := W) (ret a) [[]].
Proof.
  split; [done|]. intros st. exists []. simpl. rewrite app_nil_r.
  repeat split; [constructor | set_solver].
Qed.

Lemma follows_weaken {A} (m : M (W := W) A) P Q :
  P ⊆ Q -> follows m P -> follows m Q.
Proof.
  intros HPQ [HP Hm]. split.
  { destruct P as [|p P]; [done|]. intros ->. specialize (HPQ p). set_solver. }
  intros st. destruct (Hm st) as (l & Hl & Hacc). exists l. split; [done|].
  destruct (fst (m st)) as [a|x]; simpl in *.
  - destruct Hacc as [? ?]. split; [done|]. by apply HPQ.
  - destruct Hacc as (l' & ev & -> & ? & ? & p & ? & ?).
    exists l', ev. repeat split; try done. exists p. split; [by apply HPQ|done].
Qed.

Lemma follows_bind {A B} `{Inhabited A} (m : M (W := W) A) (f : A -> M B) P Q :
  follows m P -> (forall a, follows (f a) Q) -> follows (bind m f) (seqs P Q).
Proof.
  intros [HP Hm] Hf.
  assert (HQ : Q <> []) by apply (Hf inhabitant).
  split; [by apply seqs_nonempty|].
  intros st. unfold bind.
  destruct (Hm st) as (l1 & Hl1 & Hacc1).
  destruct (m st) as [[a|x] st1]; simpl in *.
  - destruct (Hf a) as [_ Hfa]. destruct (Hfa st1) as (l2 & Hl2 & Hacc2).
    exists (l1 ++ l2). split; [by rewrite Hl2, Hl1, app_assoc|].
    destruct Hacc1 as [Hc1 Hp1].
    destruct (fst (f a st1)) as [b|x]; simpl in *.
    + destruct Hacc2 as [Hc2 Hp2]. split; [by apply Forall_app|].
      unfold sites. rewrite fmap_app. by apply seqs_intro.
    + destruct Hacc2 as (l' & ev & -> & Hc2 & Hev & q & Hq & Hpre).
      exists (l1 ++ l'), ev. rewrite app_assoc. repeat split; try done.
      { by apply Forall_app. }
      exists (sites l1 ++ q). split; [by apply seqs_intro|].
      unfold sites in *. rewrite <- app_assoc, fmap_app.
      by apply prefix_app.
  - exists l1. split; [done|].
    destruct Hacc1 as (l' & ev & -> & Hc & Hev & p & Hp & Hpre).
    exists l', ev. repeat split; try done.
    destruct Q as [|q Q]; [done|].
    exists (p ++ q). split; [apply seqs_intro; [done | set_solver]|].
    by apply prefix_app_r.
Qed.

Lemma follows_perform {A} (s : site) (op : W -> result A * W) :
  follows (perform s op) [[s]].
Proof.
  split; [done|]. intros st. unfold perform.
  destruct (op (world st)) as [r w]. simpl.
  exists [Event s (failure r)]. split; [done|].
  destruct r as [a|x]; simpl.
  - split; [|set_solver]. repeat constructor.
  - exists [], (Event s (Some x)). repeat split; try done.
    exists [s]. split; [set_solver | done].
Qed.

Lemma follows_silent {A} (m : M (W := W) A) (a : A) :
  (forall st, fst (m st) = Ok a /\ trace (snd (m st)) = trace st) ->
  follows m [[]].
Proof.
  intros Hm. split; [done|]. intros st. destruct (Hm st) as [Hr Ht].
  exists []. rewrite Ht, Hr, app_nil_r. simpl.
  repeat split; constructor.
Qed.

Lemma follows_store_name x v : follows (W := W) (store_name x v) [[]].
Proof. apply (follows_silent _ tt). intros st. by split. Qed.

Lemma follows_write s : follows (W := W) (write s) [[]].
Proof. apply (follows_silent _ tt). intros st. by split. Qed.

Lemma follows_load_name x : follows (W := W) (load_name x) [[AtName x]].
Proof.
  split; [done|]. intros st.
  destruct (follows_perform (AtName x) (fun w => (resolve x st, w))) as [_ Hp].
  apply Hp.
Qed.

Lemma follows_if {A} (b : bool) (m1 m2 : M (W := W) A) P1 P2 :
  follows m1 P1 -> follows m2 P2 -> follows (if b then m1 else m2) (P1 ++ P2).
Proof.
  intros H1 H2. destruct b.
  - eapply follows_weaken; [|exact H1]. set_solver.
  - eapply follows_weaken; [|exact H2]. set_solver.
Qed.

Lemma seqs_nil_r (P : list (list site)) : seqs P [[]] = P.
Proof.
  unfold seqs. simpl. induction P as [|p P IH]; [done|].
  simpl. by rewrite app_nil_r, IH.
Qed.

Lemma follows_mapM {A B} `{Inhabited B} (f : A -> M (W := W) B)
    (paths_of : A -> list (list site)) l :
  Forall (fun a => follows (f a) (paths_of a)) l ->
  follows (mapM f l) (seq_all (paths_of <$> l)).
Proof.
  induction 1 as [|a l Ha _ IH]; simpl.
  - apply follows_ret.
  - change (seq_all (paths_of a :: (paths_of <$> l)))
      with (seqs (paths_of a) (seq_all (paths_of <$> l))).
    apply follows_bind; [done|]. intros b.
    rewrite <- (seqs_nil_r (seq_all _)).
    apply follows_bind; [done|]. intros bs. apply follows_ret.
Qed.

End Laws.

Section Evaluation.

Context {W : Type} (L : library W).

Lemma follows_print e avs : follows (builtin_print L e avs) [[AtCall e]].
Proof.
  unfold builtin_print.
  change [[AtCall e]] with (seqs [[AtCall e]] (seqs [[]] [[]])).
  apply follows_bind; [apply follows_perform|]. intros ss.
  apply follows_bind; [apply follows_write|]. intros _. apply follows_ret.
Qed.

Lemma follows_call e fv avs kvs :
  follows (call L e fv avs kvs) [[AtCall e]].
Proof.
  unfold call. destruct (dispatch_of fv avs kvs) as [|o a|].
  - apply follows_print.
  - apply follows_perform.
  - apply follows_perform.
Qed.

Lemma follows_eval e : follows (eval L e) (paths e).
Proof.
  induction e as [c|x|v a IH|v s IHv IHs|f args kws IHf IHa IHk|l op r IHl IHr
                 |op l r IHl IHr|c a b IHc IHa IHb|es IH|es IH|es IH|v IH]
    using expr_nested_ind; simpl.
  - apply follows_ret.
  - apply follows_load_name.
  - apply follows_bind; [done|]. intros o. apply follows_perform.
  - apply follows_bind; [done|]. intros o.
    apply follows_bind; [done|]. intros i. apply follows_perform.
  - apply follows_bind; [done|]. intros fv.
    apply follows_bind; [by apply follows_mapM|]. intros avs.
    apply follows_bind.
    { apply (follows_mapM _ (fun kw => paths (snd kw))).
      eapply Forall_impl; [exact IHk|]. intros kw Hkw. simpl.
      rewrite <- (seqs_nil_r (paths _)).
      apply follows_bind; [done|]. intros v. apply follows_ret. }
    intros kvs. apply follows_call.
  - apply follows_bind; [done|]. intros a.
    apply follows_bind; [done|]. intros b. apply follows_perform.
  - destruct op.
    + apply follows_bind; [done|]. intros a.
      apply follows_bind; [apply follows_perform|]. intros t.
      change ([] :: paths r) with ([[]] ++ paths r).
      destruct t.
      * eapply follows_weaken; [|exact IHr].
        intros p Hp. apply elem_of_app. by right.
      * eapply follows_weaken; [|apply follows_ret].
        intros p Hp. apply elem_of_app. by left.
    + apply follows_bind; [done|]. intros a.
      apply follows_bind; [apply follows_perform|]. intros t.
      change ([] :: paths r) with ([[]] ++ paths r).
      destruct t.
      * eapply follows_weaken; [|apply follows_ret].
        intros p Hp. apply elem_of_app. by left.
      * eapply follows_weaken; [|exact IHr].
        intros p Hp. apply elem_of_app. by right.
  - apply follows_bind; [done|]. intros v.
    apply follows_bind; [apply follows_perform|]. intros t.
    by apply follows_if.
  - rewrite <- (seqs_nil_r (seq_all _)).
    apply follows_bind; [by apply follows_mapM|]. intros vs. apply follows_ret.
  - rewrite <- (seqs_nil_r (seq_all _)).
    apply follows_bind; [by apply follows_mapM|]. intros vs. apply follows_ret.
  - rewrite <- (seqs_nil_r (seq_all _)).
    apply follows_bind; [by apply follows_mapM|]. intros vs. apply follows_ret.
  - apply follows_bind; [done|]. intros x.
    rewrite <- (seqs_nil_r [[_]]).
    apply follows_bind; [apply follows_perform|]. intros s. apply follows_ret.
Qed.

Lemma follows_assign t : forall v, follows (assign L t v) (target_paths t).
Proof.
  induction t as [c|x|o a IH|o i IHo IHi|f args kws IHf IHa IHk|l op r IHl IHr
                 |op l r IHl IHr|c a b IHc IHa IHb|es IH|es IH|es IH|v IH]
    using expr_nested_ind; intros v0; simpl; try apply follows_ret.
  - apply follows_bind; [apply follows_eval|]. intros ov. apply follows_perform.
  - apply follows_bind; [apply follows_eval|]. intros ov.
    apply follows_bind; [apply follows_eval|]. intros iv. apply follows_perform.
  - apply follows_bind; [apply follows_perform|]. intros vs. revert vs.
    set (assign_all := fix go (ts : list expr) (vs : list value) : M unit :=
           match ts with
           | [] => ret tt
           | t :: ts =>
               bind (assign L t (hd VNone vs)) (fun _ => go ts (tail vs))
           end).
    induction IH as [|t ts Ht _ IHts]; intros vs; simpl.
    + apply follows_ret.
    + change (follows (bind (assign L t (hd VNone vs))
                            (fun _ => assign_all ts (tail vs)))
                (seqs (target_paths t) (seq_all (target_paths <$> ts)))).
      apply follows_bind; [apply Ht | intros _; apply IHts].
  - apply follows_bind; [apply follows_perform|]. intros vs. revert vs.
    set (assign_all := fix go (ts : list expr) (vs : list value) : M unit :=
           match ts with
           | [] => ret tt
           | t :: ts =>
               bind (assign L t (hd VNone vs)) (fun _ => go ts (tail vs))
           end).
    induction IH as [|t ts Ht _ IHts]; intros vs; simpl.
    + apply follows_ret.
    + change (follows (bind (assign L t (hd VNone vs))
                            (fun _ => assign_all ts (tail vs)))
                (seqs (target_paths t) (seq_all (target_paths <$> ts)))).
      apply follows_bind; [apply Ht | intros _; apply IHts].
Qed.

Lemma follows_exec_stmt s :
  covered s = true ->
  exists m, exec_stmt L s = Some m /\ follows m (stmt_paths s).
Proof.
  destruct s as [m [a|]|m n a|t v|v| | | | | | | | | | |]; simpl;
    try discriminate; intros Hc.
  - eexists. split; [done|]. rewrite <- (seqs_nil_r [[_]]).
    apply follows_bind; [apply follows_perform|]. intros v.
    apply follows_store_name.
  - eexists. split; [done|]. case_bool_decide as Htop.
    + rewrite <- (seqs_nil_r [[_]]).
      apply follows_bind; [apply follows_perform|]. intros v.
      rewrite <- (seqs_nil_r [[]]).
      apply follows_bind; [apply follows_ret|]. intros _.
      apply follows_store_name.
    + change [[AtImport (top_package m) None; AtImport m None]]
        with (seqs [[AtImport (top_package m) None]]
                (seqs [[AtImport m None]] [[]])).
      apply follows_bind; [apply follows_perform|]. intros v.
      apply follows_bind; [apply follows_perform|]. intros _.
      apply follows_store_name.
  - eexists. split; [done|]. rewrite <- (seqs_nil_r [[_]]).
    apply follows_bind; [apply follows_perform|]. intros v.
    apply follows_store_name.
  - rewrite Hc. eexists. split; [done|].
    apply follows_bind; [apply follows_eval|]. intros x. apply follows_assign.
  - eexists. split; [done|]. rewrite <- (seqs_nil_r (paths v)).
    apply follows_bind; [apply follows_eval|]. intros _. apply follows_ret.
  - eexists. split; [done|]. apply follows_ret.
Qed.

Lemma exec_as_computation p :
  forallb covered p = true ->
  exists m : M (W := W) unit,
    follows m (program_paths p)
    /\ forall st,
        exec L p st =
          match m st with
          | (Ok _, st') => (Finished, st')
          | (Raised x, st') => (Failed x, st')
          end.
Proof.
  induction p as [|s p IH]; simpl; intros Hc.
  - exists (ret tt). split; [apply follows_ret | done].
  - apply andb_prop in Hc as [Hs Hp].
    destruct (follows_exec_stmt s Hs) as (ms & Hms & Hfs).
    destruct (IH Hp) as (mp & Hfp & Hmp).
    exists (bind ms (fun _ => mp)). split.
    + by apply follows_bind.
    + intros st. rewrite Hms. unfold bind.
      destruct (ms st) as [[[]|x] st']; [apply Hmp | done].
Qed.

Theorem exec_explained p st :
  forallb covered p = true ->
  exists l,
    trace (snd (exec L p st)) = trace st ++ l
    /\ explains (program_paths p) (fst (exec L p st)) l.
Proof.
  intros Hc. destruct (exec_as_computation p Hc) as (m & [_ Hm] & Hexec).
  destruct (Hm st) as (l & Hl & Hacc). exists l. rewrite Hexec.
  destruct (m st) as [[[]|x] st']; simpl in *; by split.
Qed.

End Evaluation.

(** *** Names *)

Section Names.

Context {W : Type} (L : library W).

Implicit Types (st : state W) (P Q : string -> Prop).

Lemma resolve_env st st' x :
  env st' = env st -> resolve x st' = resolve x st.
Proof. unfold resolve. by intros ->. Qed.

Lemma found_env P st st' :
  env st' = env st -> all_found P st -> all_found P st'.
Proof. intros He HP x Hx. rewrite (resolve_env st st') by done. by apply HP. Qed.

Lemma reads_only_ret {A} P (a : A) : reads_only (W := W) P (ret a).
Proof.
  intros st _. split; [done|]. exists []. simpl. by rewrite app_nil_r.
Qed.

Lemma reads_only_bind {A B} P (m : M (W := W) A) (f : A -> M B) :
  reads_only P m -> (forall a, reads_only P (f a)) -> reads_only P (bind m f).
Proof.
  intros Hm Hf st HP. unfold bind.
  destruct (Hm st HP) as (He & l1 & Hl1 & Hn1).
  destruct (m st) as [[a|x] st1]; simpl in *; [|eauto].
  destruct (Hf a st1 (found_env P st st1 He HP)) as (He2 & l2 & Hl2 & Hn2).
  split; [congruence|]. exists (l1 ++ l2).
  split; [by rewrite Hl2, Hl1, app_assoc | by apply Forall_app].
Qed.

Lemma reads_only_perform {A} P (s : site) (op : W -> result A * W) :
  (forall x, s <> AtName x) -> reads_only P (perform s op).
Proof.
  intros Hs st _. unfold perform. destruct (op (world st)) as [r w']. simpl.
  split; [done|]. eexists [_]. split; [done|].
  constructor; [|constructor]. unfold name_found. simpl.
  destruct s; try done. by destruct (Hs id).
Qed.

Lemma reads_only_load_name P x : P x -> reads_only (W := W) P (load_name x).
Proof.
  intros Hx st HP. unfold load_name, perform. simpl.
  split; [done|]. eexists [_]. split; [done|].
  constructor; [|constructor]. unfold name_found. simpl.
  destruct (HP x Hx) as [v ->]. done.
Qed.

Lemma reads_only_write P s : reads_only (W := W) P (write s).
Proof.
  intros st _. split; [done|]. exists []. simpl. by rewrite app_nil_r.
Qed.

Lemma reads_only_mapM {A B} P (f : A -> M (W := W) B) l :
  Forall (fun a => reads_only P (f a)) l -> reads_only P (mapM f l).
Proof.
  induction 1 as [|a l Ha _ IH]; simpl.
  - apply reads_only_ret.
  - apply reads_only_bind; [done|]. intros b.
    apply reads_only_bind; [done|]. intros bs. apply reads_only_ret.
Qed.

Lemma reads_only_call P e fv avs kvs :
  reads_only P (call L e fv avs kvs).
Proof.
  unfold call. destruct (dispatch_of fv avs kvs) as [|o a|].
  - unfold builtin_print.
    apply reads_only_bind; [by apply reads_only_perform|]. intros ss.
    apply reads_only_bind; [apply reads_only_write|]. intros _.
    apply reads_only_ret.
  - by apply reads_only_perform.
  - by apply reads_only_perform.
Qed.

Lemma reads_only_eval e :
  forall P, (forall x, Name x ∈ subexprs e -> P x) -> reads_only P (eval L e).
Proof.
  induction e as [c|x|v a IH|v s IHv IHs|f args kws IHf IHa IHk|l op r IHl IHr
                 |op l r IHl IHr|c a b IHc IHa IHb|es IH|es IH|es IH|v IH]
    using expr_nested_ind; intros P HP; simpl in HP |- *.
  - apply reads_only_ret.
  - apply reads_only_load_name, HP. left.
  - apply reads_only_bind; [apply IH; intros; apply HP; by right|].
    intros o. by apply reads_only_perform.
  - apply reads_only_bind.
    { apply IHv. intros. apply HP. right. apply elem_of_app. by left. }
    intros o. apply reads_only_bind.
    { apply IHs. intros. apply HP. right. apply elem_of_app. by right. }
    intros i. by apply reads_only_perform.
  - apply reads_only_bind.
    { apply IHf. intros. apply HP. right. apply elem_of_app. by left. }
    intros fv. apply reads_only_bind.
    { apply reads_only_mapM. rewrite Forall_forall in IHa |- *.
      intros a Ha. apply IHa; [done|]. intros x Hx. apply HP. right.
      apply elem_of_app. right. apply elem_of_app. left.
      apply list_elem_of_In, in_flat_map. exists a.
      split; by apply list_elem_of_In. }
    intros avs. apply reads_only_bind.
    { apply reads_only_mapM. rewrite Forall_forall in IHk |- *.
      intros kw Hkw. apply reads_only_bind; [|intros; apply reads_only_ret].
      apply IHk; [done|]. intros x Hx. apply HP. right.
      apply elem_of_app. right. apply elem_of_app. right.
      apply list_elem_of_In, in_flat_map. exists kw.
      split; by apply list_elem_of_In. }
    intros kvs. apply reads_only_call.
  - apply reads_only_bind.
    { apply IHl. intros. apply HP. right. apply elem_of_app. by left. }
    intros a. apply reads_only_bind.
    { apply IHr. intros. apply HP. right. apply elem_of_app. by right. }
    intros b. by apply reads_only_perform.
  - assert (Hl : reads_only P (eval L l)).
    { apply IHl. intros. apply HP. right. apply elem_of_app. by left. }
    assert (Hr : reads_only P (eval L r)).
    { apply IHr. intros. apply HP. right. apply elem_of_app. by right. }
    destruct op; (apply reads_only_bind; [done|]); intros a;
      (apply reads_only_bind; [by apply reads_only_perform|]);
      intros []; done || apply reads_only_ret.
  - apply reads_only_bind.
    { apply IHc. intros. apply HP. right. apply elem_of_app. by left. }
    intros v. apply reads_only_bind; [by apply reads_only_perform|].
    intros [].
    + apply IHa. intros. apply HP. right.
      apply elem_of_app. right. apply elem_of_app. by left.
    + apply IHb. intros. apply HP. right.
      apply elem_of_app. right. apply elem_of_app. by right.
  - apply reads_only_bind; [|intros; apply reads_only_ret].
    apply reads_only_mapM. rewrite Forall_forall in IH |- *.
    intros a Ha. apply IH; [done|]. intros x Hx. apply HP. right.
    apply list_elem_of_In, in_flat_map. exists a. split; by apply list_elem_of_In.
  - apply reads_only_bind; [|intros; apply reads_only_ret].
    apply reads_only_mapM. rewrite Forall_forall in IH |- *.
    intros a Ha. apply IH; [done|]. intros x Hx. apply HP. right.
    apply list_elem_of_In, in_flat_map. exists a. split; by apply list_elem_of_In.
  - apply reads_only_bind; [|intros; apply reads_only_ret].
    apply reads_only_mapM. rewrite Forall_forall in IH |- *.
    intros a Ha. apply IH; [done|]. intros x Hx. apply HP. right.
    apply list_elem_of_In, in_flat_map. exists a. split; by apply list_elem_of_In.
  - apply reads_only_bind; [apply IH; intros; apply HP; by right|].
    intros x. apply reads_only_bind; [by apply reads_only_perform|].
    intros s. apply reads_only_ret.
Qed.

End Names.

Section Binding.

Context {W : Type} (L : library W).

Implicit Types (st : state W) (P Q : string -> Prop).

Lemma grows_trans st1 st2 st3 : grows st1 st2 -> grows st2 st3 -> grows st1 st3.
Proof. intros H12 H23 x Hx. by apply H23, H12. Qed.

Lemma grows_env st st' : env st' = env st -> grows st st'.
Proof. intros He x Hx. by rewrite (resolve_env st st'). Qed.

Lemma grows_found P st st' : grows st st' -> all_found P st -> all_found P st'.
Proof. intros Hg HP x Hx. by apply Hg, HP. Qed.

Lemma binds_names_reads_only {A} P (m : M (W := W) A) :
  reads_only P m -> binds_names P [] m.
Proof.
  intros Hm st HP. destruct (Hm st HP) as (He & Hl).
  split; [by apply grows_env|]. split; [done|].
  intros u _ x Hx. by apply not_elem_of_nil in Hx.
Qed.

Lemma binds_names_store_name P x v :
  binds_names (W := W) P [x] (store_name x v).
Proof.
  intros st HP. unfold store_name, grows, all_found, resolve. simpl.
  split; [|split].
  - intros y Hy. destruct (decide (x = y)) as [->|Hne].
    + rewrite lookup_insert_eq. eauto.
    + by rewrite lookup_insert_ne.
  - exists []. by rewrite app_nil_r.
  - intros _ _ y Hy. apply list_elem_of_singleton in Hy as ->.
    rewrite lookup_insert_eq. eauto.
Qed.

Lemma binds_names_bind {A B} P xs ys (m : M (W := W) A) (f : A -> M B) :
  binds_names P xs m -> (forall a, binds_names P ys (f a)) ->
  binds_names P (xs ++ ys) (bind m f).
Proof.
  intros Hm Hf st HP. unfold bind.
  destruct (Hm st HP) as (Hg1 & (l1 & Hl1 & Hn1) & Hx1).
  destruct (m st) as [[a|x] st1]; simpl in *.
  - destruct (Hf a st1 (grows_found P _ _ Hg1 HP))
      as (Hg2 & (l2 & Hl2 & Hn2) & Hx2).
    split; [by eapply grows_trans|]. split.
    + exists (l1 ++ l2).
      split; [by rewrite Hl2, Hl1, app_assoc | by apply Forall_app].
    + intros u Hu y Hy. apply elem_of_app in Hy as [Hy|Hy].
      * by apply Hg2, (Hx1 a).
      * by apply (Hx2 u).
  - split; [done|]. split; [eauto|]. intros u Hu. discriminate.
Qed.

Lemma binds_names_assign t :
  forall v P,
    (forall x, Name x ∈ flat_map subexprs (target_reads t) -> P x) ->
    binds_names P (target_binds t) (assign L t v).
Proof.
  induction t as [c|x|o a IH|o i IHo IHi|f args kws IHf IHa IHk|l op r IHl IHr
                 |op l r IHl IHr|c a b IHc IHa IHb|es IH|es IH|es IH|v IH]
    using expr_nested_ind; intros v0 P HP; simpl in HP |- *;
    try (apply binds_names_reads_only, reads_only_ret).
  - apply binds_names_store_name.
  - apply binds_names_reads_only, reads_only_bind.
    { apply reads_only_eval. intros x Hx. apply HP.
      rewrite app_nil_r. done. }
    intros ov. by apply reads_only_perform.
  - apply binds_names_reads_only, reads_only_bind.
    { apply reads_only_eval. intros x Hx. apply HP.
      apply elem_of_app. by left. }
    intros ov. apply reads_only_bind.
    { apply reads_only_eval. intros x Hx. apply HP.
      apply elem_of_app. right. by rewrite app_nil_r. }
    intros iv. by apply reads_only_perform.
  - apply (binds_names_bind P [] _).
    { apply binds_names_reads_only. by apply reads_only_perform. }
    intros vs. revert vs.
    induction IH as [|t ts Ht _ IHts]; intros vs; simpl.
    + apply binds_names_reads_only, reads_only_ret.
    + apply binds_names_bind.
      * apply Ht. intros x Hx. apply HP. simpl.
        rewrite flat_map_app. apply elem_of_app. by left.
      * intros _. apply IHts. intros x Hx. apply HP. simpl.
        rewrite flat_map_app. apply elem_of_app. by right.
  - apply (binds_names_bind P [] _).
    { apply binds_names_reads_only. by apply reads_only_perform. }
    intros vs. revert vs.
    induction IH as [|t ts Ht _ IHts]; intros vs; simpl.
    + apply binds_names_reads_only, reads_only_ret.
    + apply binds_names_bind.
      * apply Ht. intros x Hx. apply HP. simpl.
        rewrite flat_map_app. apply elem_of_app. by left.
      * intros _. apply IHts. intros x Hx. apply HP. simpl.
        rewrite flat_map_app. apply elem_of_app. by right.
Qed.

Lemma binds_names_exec_stmt s P :
  simple s = true ->
  (forall x, x ∈ reads s -> P x) ->
  forall m, exec_stmt L s = Some m -> binds_names P (binds s) m.
Proof.
  destruct s as [m [a|]|m n a|t v|v| | | | | | | | | | |]; simpl;
    try discriminate; intros _ HP m0 Hm0.
  - injection Hm0 as <-. apply (binds_names_bind P [] [a]).
    + apply binds_names_reads_only. by apply reads_only_perform.
    + intros v. apply binds_names_store_name.
  - injection Hm0 as <-. apply (binds_names_bind P [] [top_package m]).
    + apply binds_names_reads_only. by apply reads_only_perform.
    + intros v. apply (binds_names_bind P [] [top_package m]).
      * apply binds_names_reads_only. case_bool_decide.
        -- apply reads_only_ret.
        -- by apply reads_only_perform.
      * intros _. apply binds_names_store_name.
  - injection Hm0 as <-. destruct a as [a|]; simpl;
      (apply (binds_names_bind P [] [_]);
       [apply binds_names_reads_only; by apply reads_only_perform
       |intros v; apply binds_names_store_name]).
  - destruct (assignable t); [|discriminate]. injection Hm0 as <-.
    apply (binds_names_bind P [] _).
    + apply binds_names_reads_only, reads_only_eval.
      intros x Hx. apply HP. unfold reads. apply list_elem_of_omap.
      exists (Name x). split; [|done]. simpl. apply elem_of_app. by left.
    + intros x. apply binds_names_assign.
      intros y Hy. apply HP. unfold reads. apply list_elem_of_omap.
      exists (Name y). split; [|done]. simpl. apply elem_of_app. by right.
  - injection Hm0 as <-. apply (binds_names_bind P [] []).
    + apply binds_names_reads_only, reads_only_eval.
      intros x Hx. apply HP. unfold reads. apply list_elem_of_omap.
      exists (Name x). split; [|done]. simpl. by rewrite app_nil_r.
    + intros _. apply binds_names_reads_only, reads_only_ret.
Qed.

(** A program that binds every name before reading it never fails to find
    a name. *)
Theorem bound_names_are_found p :
  forall bound st,
    bound_before_use bound p = true ->
    all_found (fun x => x ∈ bound) st ->
    exists l,
      trace (snd (exec L p st)) = trace st ++ l /\ Forall name_found l.
Proof.
  induction p as [|s p IH]; intros bound st Hb Hfound; simpl in *.
  - exists []. by rewrite app_nil_r.
  - apply andb_prop in Hb as [Hb Hp]. apply andb_prop in Hb as [Hs Hr].
    destruct (exec_stmt L s) as [m|] eqn:Hm.
    2: { exists []. by rewrite app_nil_r. }
    assert (Hreads : forall x, x ∈ reads s -> x ∈ bound).
    { intros x Hx. rewrite forallb_forall in Hr.
      apply list_elem_of_In, Hr in Hx. by apply bool_decide_eq_true in Hx. }
    destruct (binds_names_exec_stmt s _ Hs Hreads m Hm st Hfound)
      as (Hg & (l1 & Hl1 & Hn1) & Hx).
    destruct (m st) as [[[]|x] st1]; simpl in *; [|eauto].
    destruct (IH (binds s ++ bound) st1 Hp) as (l2 & Hl2 & Hn2).
    { intros y Hy. apply elem_of_app in Hy as [Hy|Hy].
      - by apply (Hx tt).
      - by apply Hg, Hfound. }
    exists (l1 ++ l2).
    split; [by rewrite Hl2, Hl1, app_assoc | by apply Forall_app].
Qed.

End Binding.

(* ===================================================================== *)
(** ** The notebook: what every run does *)
(* ===================================================================== *)

Section Notebook.

Context {W : Type} (L : library W) (w : W).

Lemma notebook_covered : forallb covered (program pin_cheat_list) = true.
Proof. vm_compute. reflexivity. Qed.

(** There are two ways through the notebook, one for each answer of the
    guard of cell 12. *)
Lemma notebook_paths :
  program_paths (program pin_cheat_list) =
    [ program_route false (program pin_cheat_list);
      program_route true (program pin_cheat_list) ].
Proof. vm_compute. reflexivity. Qed.

Lemma notebook_explained :
  explains (program_paths (program pin_cheat_list))
           (fst (run L pin_cheat_list w)) (trace (snd (run L pin_cheat_list w))).
Proof.
  destruct (exec_explained L (program pin_cheat_list) (initial w)
              notebook_covered) as (l & Hl & Hacc).
  unfold run. rewrite Hl. exact Hacc.
Qed.

Lemma notebook_routes p :
  p ∈ program_paths (program pin_cheat_list) ->
  exists b, p = program_route b (program pin_cheat_list).
Proof.
  rewrite notebook_paths. intros Hp.
  apply list_elem_of_In in Hp. destruct Hp as [<-|[<-|[]]]; eauto.
Qed.

Lemma notebook_propagates :
  propagates (fst (run L pin_cheat_list w))
             (trace (snd (run L pin_cheat_list w))).
Proof.
  pose proof notebook_explained as H.
  destruct (fst (run L pin_cheat_list w)) as [|x|s]; simpl in *; [| |done].
  - by destruct H.
  - destruct H as (l' & ev & Hl & Hquiet & Hx & _). by exists l', ev.
Qed.

Lemma notebook_names_found :
  Forall name_found (trace (snd (run L pin_cheat_list w))).
Proof.
  destruct (bound_names_are_found L (program pin_cheat_list) builtins
              (initial w)) as (l & Hl & Hn).
  - vm_compute. reflexivity.
  - intros x Hx. unfold resolve. simpl. rewrite lookup_empty.
    rewrite bool_decide_eq_true_2 by done. eauto.
  - unfold run. by rewrite Hl.
Qed.

Lemma notebook_along :
  exists b,
    along (program_route b (program pin_cheat_list))
          (fst (run L pin_cheat_list w)) (trace (snd (run L pin_cheat_list w))).
Proof.
  pose proof notebook_explained as H.
  destruct (fst (run L pin_cheat_list w)) as [|x|s]; simpl in *; [| |done].
  - destruct H as [_ Hp]. apply notebook_routes in Hp as [b Hb]. by exists b.
  - destruct H as (l' & ev & Hl & _ & _ & p & Hp & Hpre).
    apply notebook_routes in Hp as [b ->]. by exists b.
Qed.

End Notebook.

(* ===================================================================== *)
(** ** The analyses tell notebooks apart *)
(* ===================================================================== *)

(** A handler around the URDF parse would be seen. *)
Example no_handlers_sees_try :
  no_handlers [Code [Try cell_10 [(None, [Pass])] []]] = false.
Proof. reflexivity. Qed.

(** Without the guard of cell 12 the notebook is straight-line code with
    a single route. *)
Example straight_line_without_guard :
  straight_line (without_cell 12 pin_cheat_list) = true
  /\ length (program_paths (program (without_cell 12 pin_cheat_list))) = 1.
Proof. vm_compute. done. Qed.

(** Without the viewer of cell 11 no network endpoint is named. *)
Example no_endpoint_without_viewer :
  opens_no_network_connection (without_cell 11 pin_cheat_list) = true.
Proof. vm_compute. reflexivity. Qed.

(** Mesh, parse, forward kinematics, then the fields: the order the stages
    would have to come in. *)
Example stages_in_order :
  pipeline_in_order
    [Code cell_2; Code cell_4; Code cell_9; Code cell_10; Code cell_21;
     Code cell_14; Code cell_19; Code cell_22; Code cell_30] = true.
Proof. vm_compute. reflexivity. Qed.

(** A name read before it is bound is seen: cell 10 alone reads [path]
    and [pin], which cell 9 imports. *)
Example unbound_names_are_seen :
  bound_before_use builtins cell_10 = false
  /\ bound_before_use builtins (cell_9 ++ cell_10) = true.
Proof. vm_compute. done. Qed.

(** Run on its own, cell 10 fails at its first name lookup. *)
Example cell_10_alone :
  fst (run (Symbolic.symbolic Symbolic.no_fault) [Code cell_10] [])
  = Failed (Exn "NameError" "path").
Proof. vm_compute. reflexivity. Qed.

(** [hasattr] answers [True] when the lookup succeeds and [False] when it
    ends in [AttributeError]; another exception of the lookup is the
    call's. *)
Example hasattr_answers :
  let probe fault :=
    run (Symbolic.symbolic fault)
        [Code [ Import "meshcat" None;
                Assign $"viewer" (Call0 ($"meshcat" # "Visualizer"));
                Assign $"has" (Call $"hasattr" [$"viewer"; Str "jupyter_cell"] []) ]]
        [] in
  let lookup_raises x name :=
    if bool_decide (name = "meshcat.Visualizer().jupyter_cell") then Some x
    else None in
  env (snd (probe Symbolic.no_fault)) !! "has" = Some (VBool true)
  /\ env (snd (probe (lookup_raises (Exn "AttributeError" "jupyter_cell"))))
       !! "has" = Some (VBool false)
  /\ fst (probe (lookup_raises (Exn "RuntimeError" "viewer closed")))
     = Failed (Exn "RuntimeError" "viewer closed").
Proof. vm_compute. done. Qed.

(* ===================================================================== *)
(** ** Runs against the symbolic library *)
(* ===================================================================== *)

Import Symbolic.

(** With nothing failing the notebook runs to its end, through 242
    operations. *)
Lemma run_no_fault :
  fst (run (symbolic no_fault) pin_cheat_list []) = Finished
  /\ sites (trace (snd (run (symbolic no_fault) pin_cheat_list [])))
     = program_route true (program pin_cheat_list)
  /\ length (trace (snd (run (symbolic no_fault) pin_cheat_list []))) = 242.
Proof. vm_compute. done. Qed.

(** Without [jupyter_cell] the guard of cell 12 answers [False]: the
    notebook runs to its end and skips the four operations of the call. *)
Lemma run_no_jupyter_cell :
  fst (run (symbolic no_jupyter_cell) pin_cheat_list []) = Finished
  /\ sites (trace (snd (run (symbolic no_jupyter_cell) pin_cheat_list [])))
     = program_route false (program pin_cheat_list)
  /\ length (trace (snd (run (symbolic no_jupyter_cell) pin_cheat_list []))) = 238.
Proof. vm_compute. done. Qed.

(** When the URDF file is missing, the exception of
    [pin.buildModelsFromUrdf] is what the run fails with, and nothing of
    cell 10 after the call, or of any later cell, runs. *)
Lemma run_missing_urdf :
  fst (run (symbolic missing_urdf) pin_cheat_list [])
  = Failed (Exn "ValueError" "The file two_bodies.urdf does not exist")
  /\ last (trace (snd (run (symbolic missing_urdf) pin_cheat_list [])))
     = Some (Event (AtCall (Call ($"pin" # "buildModelsFromUrdf")
                              [$"MODEL_PATH"; Constant CNone;
                               Call0 ($"pin" # "JointModelFreeFlyer")] []))
               (Some (Exn "ValueError" "The file two_bodies.urdf does not exist")))
  /\ env (snd (run (symbolic missing_urdf) pin_cheat_list [])) !! "model" = None
  /\ length (stdout (snd (run (symbolic missing_urdf) pin_cheat_list []))) = 4.
Proof. vm_compute. done. Qed.

Lemma routes_differ :
  program_route false (program pin_cheat_list)
  <> program_route true (program pin_cheat_list).
Proof.
  intros H. apply (f_equal length) in H. vm_compute in H. discriminate.
Qed.

(* ===================================================================== *)
(** ** Error handling *)
(* ===================================================================== *)

Lemma propagates_every_exception o (t : list event) ev x :
  propagates o t -> ev ∈ t -> raised ev = Some x -> o = Failed x.
Proof.
  destruct o as [|y|s]; simpl; [| |done].
  - intros Hq Hev Hx. rewrite Forall_forall in Hq.
    specialize (Hq ev Hev). unfold quiet in Hq. congruence.
  - intros (t' & ev0 & -> & Hq & Hy) Hev Hx.
    apply elem_of_app in Hev as [Hev|Hev].
    + rewrite Forall_forall in Hq. specialize (Hq ev Hev).
      unfold quiet in Hq. congruence.
    + apply list_elem_of_singleton in Hev as ->. congruence.
Qed.


(* ===================================================================== *)
(** ** Control flow *)
(* ===================================================================== *)



(* ===================================================================== *)
(** ** The URDF model *)
(* ===================================================================== *)

Module UrdfFacts.
Import Urdf.

(** Walking up from a link that is not the root arrives at the root. *)
Lemma climbs_below r root fuel l :
  climbs r root fuel l = true -> l <> root -> below r root l.
Proof.
  revert l. induction fuel as [|n IH]; intros l; simpl.
  - case_bool_decide; [done | discriminate].
  - case_bool_decide as Hl; [done|].
    destruct (parent_joints r l) as [|j [|j' js]] eqn:Hpj; try discriminate.
    intros Hc _.
    assert (Hj : j ∈ parent_joints r l) by (rewrite Hpj; constructor).
    apply list_elem_of_filter in Hj as [Hchild Hj]. subst l.
    destruct (decide (parent j = root)) as [<-|Hne].
    + by apply below_joint.
    + eapply below_chain; [by apply IH | by apply below_joint].
Qed.

Lemma climbs_depth r root fuel l :
  climbs r root fuel l = true -> is_Some (depth r root fuel l).
Proof.
  revert l. induction fuel as [|n IH]; intros l; simpl.
  - case_bool_decide; [eauto | discriminate].
  - case_bool_decide; [eauto|].
    destruct (parent_joints r l) as [|j [|j' js]]; try discriminate.
    intros Hc. destruct (IH _ Hc) as [d ->]. by eexists.
Qed.

Lemma depth_more_fuel r root fuel l d :
  depth r root fuel l = Some d -> depth r root (S fuel) l = Some d.
Proof.
  revert l d. induction fuel as [|n IH]; intros l d.
  - simpl. case_bool_decide; [done | discriminate].
  - intros Hd. change (depth r root (S (S n)) l) with
      (if bool_decide (l = root) then Some 0
       else match parent_joints r l with
            | [j] => S <$> depth r root (S n) (parent j)
            | _ => None
            end).
    simpl in Hd. case_bool_decide; [done|].
    destruct (parent_joints r l) as [|j [|j' js]]; try discriminate.
    destruct (depth r root n (parent j)) as [d'|] eqn:Hd'; [|discriminate].
    by rewrite (IH _ _ Hd').
Qed.

Lemma depth_step r root fuel l j :
  l <> root -> parent_joints r l = [j] ->
  depth r root (S fuel) l = S <$> depth r root fuel (parent j).
Proof.
  intros Hne Hpj. simpl. rewrite bool_decide_eq_false_2 by done.
  by rewrite Hpj.
Qed.

(** A graph that passes [tree_check] is a tree. *)
Theorem tree_check_sound r root :
  tree_check r root = true -> tree_rooted_at r root.
Proof.
  unfold tree_check. intros H.
  repeat (apply andb_prop in H as [H ?]).
  apply bool_decide_eq_true in H.
  repeat match goal with
         | Hb : bool_decide _ = true |- _ => apply bool_decide_eq_true in Hb
         end.
  rename H into Hnodup.
  match goal with Hb : forallb (climbs _ _ _) _ = true |- _ => rename Hb into Hclimb end.
  match goal with Hb : forallb _ (joints r) = true |- _ => rename Hb into Hends end.
  match goal with Hb : parent_joints r root = [] |- _ => rename Hb into Hroot end.
  match goal with Hb : root ∈ links r |- _ => rename Hb into Hin end.
  rewrite forallb_forall in Hclimb, Hends.
  assert (Hends' : forall j, j ∈ joints r ->
                             parent j ∈ links r /\ child j ∈ links r).
  { intros j Hj. apply list_elem_of_In, Hends in Hj.
    apply andb_prop in Hj as [Hp Hc].
    by apply bool_decide_eq_true in Hp, Hc. }
  assert (Hup : forall l, l ∈ links r -> climbs r root (length (links r)) l = true).
  { intros l Hl. by apply Hclimb, list_elem_of_In. }
  set (n := length (links r)) in *.
  assert (Hstep : forall j, j ∈ joints r ->
            exists d, depth r root n (parent j) = Some d
                      /\ depth r root n (child j) = Some (S d)).
  { intros j Hj.
    assert (Hne : child j <> root).
    { intros Heq. assert (Hjr : j ∈ parent_joints r root).
      { apply list_elem_of_filter. by split. }
      rewrite Hroot in Hjr. by apply not_elem_of_nil in Hjr. }
    pose proof (Hup _ (proj2 (Hends' j Hj))) as Hc.
    destruct n as [|m]; simpl in Hc;
      rewrite bool_decide_eq_false_2 in Hc by done; [discriminate|].
    destruct (parent_joints r (child j)) as [|j' [|j'' js]] eqn:Hpj;
      try discriminate.
    assert (Hjj : j ∈ parent_joints r (child j)).
    { apply list_elem_of_filter. by split. }
    rewrite Hpj in Hjj. apply list_elem_of_singleton in Hjj. subst j'.
    destruct (climbs_depth _ _ _ _ Hc) as [d Hd].
    exists d. split; [by apply depth_more_fuel|].
    rewrite (depth_step r root m (child j) j Hne Hpj). by rewrite Hd. }
  assert (Hless : forall a b, below r a b ->
            exists da db, depth r root n a = Some da
                          /\ depth r root n b = Some db /\ da < db).
  { induction 1 as [j Hj|a b c _ (da & db & Ha & Hb & Hlt)
                            _ (db' & dc & Hb' & Hc & Hlt')].
    - destruct (Hstep j Hj) as (d & Hp & Hc). exists d, (S d). auto with lia.
    - exists da, dc. rewrite Hb in Hb'. simplify_eq. auto with lia. }
  repeat split; try done.
  - by apply Hends'.
  - by apply Hends'.
  - intros l Hl Hne. pose proof (Hup l Hl) as Hc.
    destruct n as [|m]; simpl in Hc;
      rewrite bool_decide_eq_false_2 in Hc by done; [discriminate|].
    by destruct (parent_joints r l) as [|j [|j' js]].
  - intros l Hl Hne. eapply climbs_below; [by apply Hup | done].
  - intros l Hb. destruct (Hless _ _ Hb) as (da & db & Ha & Hb' & Hlt).
    rewrite Ha in Hb'. simplify_eq. lia.
Qed.

End UrdfFacts.

(** C2: the joint graph of [two_bodies.urdf] is a tree rooted at the link
    [world].  It has exactly the three links [world], [body_one] and
    [body_two]; the one joint into [body_one] is fixed and comes from
    [world], the one joint into [body_two] is floating and comes from
    [world]; [world] has no parent joint, every other link has exactly
    one, and no link is below itself. *)
Theorem two_bodies_is_a_tree :
  Urdf.links Urdf.two_bodies = ["world"; "body_one"; "body_two"]
  /\ (fun j => (Urdf.joint_kind j, Urdf.parent j))
       <$> Urdf.parent_joints Urdf.two_bodies "body_one"
     = [(Urdf.Fixed, "world")]
  /\ (fun j => (Urdf.joint_kind j, Urdf.parent j))
       <$> Urdf.parent_joints Urdf.two_bodies "body_two"
     = [(Urdf.Floating, "world")]
  /\ length (Urdf.joints Urdf.two_bodies) = 2
  /\ Urdf.tree_rooted_at Urdf.two_bodies "world".
Proof.
  repeat (split; [vm_compute; reflexivity|]).
  apply UrdfFacts.tree_check_sound. vm_compute. reflexivity.
Qed.

(* ===================================================================== *)
(** ** External interfaces *)
(* ===================================================================== *)

(** C3, as stated, fails: the notebook does ask for a network connection.
    Cell 11 builds the viewer with
    [meshcat.Visualizer(zmq_url="tcp://127.0.0.1:6000")]. *)
Lemma notebook_names_a_network_endpoint :
  opens_no_network_connection pin_cheat_list = false
  /\ network_endpoints pin_cheat_list = ["tcp://127.0.0.1:6000"]
  /\ cell_11 !! 1
     = Some (Assign ($"viz" # "viewer")
               (Call ($"meshcat" # "Visualizer") []
                  [("zmq_url", Str "tcp://127.0.0.1:6000")])).
Proof. vm_compute. done. Qed.

(** C3, amended: besides the URDF file and printed text the notebook
    reaches one external interface, the meshcat server at
    [tcp://127.0.0.1:6000] on the local host, and every run that finishes
    has made that call.  It imports trimesh, [os] (for [path]), pinocchio,
    [pinocchio.visualize] and meshcat and nothing else; the only names it
    reads without binding them are the builtins [print] and [hasattr]; it
    names no command-line, environment-variable, standard-input or
    file-writing interface; the only file name among its constants is
    [two_bodies.urdf]; and the calls it makes are the ones listed. *)
Theorem external_interfaces :
  forall (W : Type) (L : library W) (w : W),
    network_endpoints pin_cheat_list = ["tcp://127.0.0.1:6000"]
    /\ (fst (run L pin_cheat_list w) = Finished ->
        AtCall (Call ($"meshcat" # "Visualizer") []
                  [("zmq_url", Str "tcp://127.0.0.1:6000")])
        ∈ sites (trace (snd (run L pin_cheat_list w))))
    /\ imports pin_cheat_list
       = ["trimesh"; "os"; "pinocchio"; "pinocchio.visualize"; "meshcat"]
    /\ free_names pin_cheat_list = ["hasattr"; "print"]
    /\ mentions interface_names pin_cheat_list = []
    /\ string_constants pin_cheat_list
       = ["mass = "; "inertia = "; "sxyz"; "two_bodies.urdf"; "";
          "tcp://127.0.0.1:6000"; "jupyter_cell"; "body_two"]
    /\ distinct_calls pin_cheat_list
       = [ ["tr"; "primitives"; "Box"]; ["tr"; "primitives"; "Cylinder"];
           ["tr"; "transformations"; "euler_matrix"];
           ["cylinder"; "apply_transform"]; ["cylinder"; "show"];
           ["path"; "abspath"]; ["path"; "join"];
           ["pin"; "buildModelsFromUrdf"]; ["pin"; "JointModelFreeFlyer"];
           ["model"; "createData"]; ["MeshcatVisualizer"];
           ["meshcat"; "Visualizer"]; ["viz"; "clean"];
           ["viz"; "loadViewerModel"]; ["viz"; "display"];
           ["viz"; "displayVisuals"]; ["hasattr"];
           ["viz"; "viewer"; "jupyter_cell"]; ["model"; "names"; "tolist"];
           ["model"; "joints"; "tolist"];
           ["model"; "jointPlacements"; "tolist"];
           ["model"; "inertias"; "tolist"]; ["data"; "joints"; "tolist"];
           ["data"; "oMi"; "tolist"]; ["data"; "oMf"; "tolist"];
           ["data"; "v"; "tolist"]; ["data"; "a"; "tolist"];
           ["data"; "f"; "tolist"]; ["data"; "M"; "tolist"];
           ["data"; "nle"; "tolist"]; ["model"; "getBodyId"];
           ["pin"; "neutral"]; ["pin"; "framesForwardKinematics"];
           ["pin"; "SE3"; "Random"]; ["pin"; "SE3"]; ["M"; "inverse"];
           ["print"] ].
Proof.
  intros W L w. split; [vm_compute; reflexivity|]. split.
  - intros Hfin. destruct (notebook_along L w) as [b Hb].
    rewrite Hfin in Hb. simpl in Hb. rewrite Hb.
    apply (list_elem_of_lookup_2 _ 80). destruct b; vm_compute; reflexivity.
  - repeat split; vm_compute; reflexivity.
Qed.

(* ===================================================================== *)
(** ** The order of the pipeline *)
(* ===================================================================== *)

(** C4, as stated, fails: the stages do not come in the one order the
    claim gives.  Cells 14 to 19 show fields of [model] before cell 21
    runs forward kinematics, and cell 33 runs forward kinematics again
    after cells 22 to 32 have shown the fields of [data]. *)
Lemma stages_out_of_order :
  pipeline_in_order pin_cheat_list = false
  /\ stages pin_cheat_list !! 17 = Some (19, Inspect)
  /\ stages pin_cheat_list !! 18 = Some (21, Kinematics)
  /\ last (stages pin_cheat_list) = Some (33, Kinematics).
Proof. vm_compute. done. Qed.

(** C4, amended: the notebook goes through its stages in cell order, with
    no loop and with every name bound before it is read, so that nothing
    is retried, nothing flows back and no run fails to find a name:
    trimesh computes mass and inertia in cells 2, 4 and 6, cell 10 parses
    the URDF, and only cell 10 and later cells read [model] or [data];
    fields of [data] are shown only after the forward kinematics of
    cell 21.  But fields of [model] are shown in cells 14 to 19, before
    forward kinematics, and forward kinematics runs a second time in
    cell 33, after the fields of [data] were shown. *)
Theorem pipeline_order :
  forall (W : Type) (L : library W) (w : W),
    cells_at Mesh pin_cheat_list = [2; 4; 6]
    /\ cells_at Parse pin_cheat_list = [10]
    /\ cells_at Kinematics pin_cheat_list = [21; 33]
    /\ cells_showing "model" pin_cheat_list = [14; 15; 16; 17; 18; 19]
    /\ cells_showing "data" pin_cheat_list
       = [22; 23; 24; 25; 26; 27; 28; 29; 30; 31; 32]
    /\ cells_reading "model" pin_cheat_list
       = [10; 11; 14; 15; 16; 17; 18; 19; 21; 33]
    /\ cells_reading "data" pin_cheat_list
       = [21; 22; 23; 24; 25; 26; 27; 28; 29; 30; 31; 32; 33]
    /\ mesh_names pin_cheat_list = ["tr"; "box_one"; "cylinder"; "rotation"]
    /\ forallb (fun s => negb (loops s || catches s)) (every_stmt pin_cheat_list)
       = true
    /\ bound_before_use builtins (program pin_cheat_list) = true
    /\ Forall name_found (trace (snd (run L pin_cheat_list w))).
Proof.
  intros W L w.
  repeat (split; [vm_compute; reflexivity|]).
  apply notebook_names_found.
Qed.

(* ===================================================================== *)
(** ** The session's variables *)
(* ===================================================================== *)

Local Set Warnings "-clear-no-such-hyp".

Section Session.

Context {W : Type} (L : library W).

Implicit Types (st : state W).

Lemma keeps_env_ret {A} (a : A) : keeps_env (W := W) (ret a).
Proof. by intros st. Qed.

Lemma keeps_env_bind {A B} (m : M (W := W) A) (f : A -> M B) :
  keeps_env m -> (forall a, keeps_env (f a)) -> keeps_env (bind m f).
Proof.
  intros Hm Hf st. unfold bind. specialize (Hm st).
  destruct (m st) as [[a|x] st1]; simpl in *; [|done].
  by rewrite Hf.
Qed.

Lemma keeps_env_perform {A} (s : site) (op : W -> result A * W) :
  keeps_env (perform s op).
Proof. intros st. unfold perform. by destruct (op (world st)). Qed.

Lemma keeps_env_mapM {A B} (f : A -> M (W := W) B) l :
  Forall (fun a => keeps_env (f a)) l -> keeps_env (mapM f l).
Proof.
  induction 1 as [|a l Ha _ IH]; simpl; [apply keeps_env_ret|].
  apply keeps_env_bind; [done|]. intros b.
  apply keeps_env_bind; [done|]. intros bs. apply keeps_env_ret.
Qed.

Lemma keeps_env_call e fv avs kvs : keeps_env (call L e fv avs kvs).
Proof.
  unfold call. destruct (dispatch_of fv avs kvs); try apply keeps_env_perform.
  unfold builtin_print. apply keeps_env_bind; [apply keeps_env_perform|].
  intros ss. apply keeps_env_bind; [by intros st|]. intros _.
  apply keeps_env_ret.
Qed.

(** Evaluating an expression binds nothing. *)
Lemma keeps_env_eval e : keeps_env (eval L e).
Proof.
  induction e as [c|x|v a IH|v s IHv IHs|f args kws IHf IHa IHk|l op r IHl IHr
                 |op l r IHl IHr|c a b IHc IHa IHb|es IH|es IH|es IH|v IH]
    using expr_nested_ind; simpl;
    repeat first
      [ apply keeps_env_ret
      | apply keeps_env_perform
      | apply keeps_env_call
      | assumption
      | apply keeps_env_mapM
      | apply keeps_env_bind; [|intros ?] ].
  - intros st. apply (keeps_env_perform (AtName x)).
  - eapply Forall_impl; [exact IHk|]. intros kw Hkw. simpl.
    apply keeps_env_bind; [done|]. intros v. apply keeps_env_ret.
  - destruct op; (apply keeps_env_bind; [done|]); intros a;
      (apply keeps_env_bind; [apply keeps_env_perform|]);
      intros []; done || apply keeps_env_ret.
  - match goal with |- keeps_env (if ?t then _ else _) => by destruct t end.
Qed.

Lemma binds_exactly_keeps {A} (m : M (W := W) A) :
  keeps_env m -> binds_exactly [] m.
Proof. intros Hm st. rewrite Hm. set_solver. Qed.

Lemma binds_exactly_store_name x v :
  binds_exactly (W := W) [x] (store_name x v).
Proof. intros st. simpl. rewrite dom_insert_L. set_solver. Qed.

Lemma binds_exactly_bind {A B} xs ys (m : M (W := W) A) (f : A -> M B) :
  binds_exactly xs m -> (forall a, binds_exactly ys (f a)) ->
  binds_exactly (xs ++ ys) (bind m f).
Proof.
  intros Hm Hf st. unfold bind.
  destruct (Hm st) as (H1 & H2 & H3).
  destruct (m st) as [[a|x] st1]; simpl in *.
  - destruct (Hf a st1) as (H4 & H5 & H6). specialize (H3 a eq_refl).
    rewrite list_to_set_app_L. repeat split; [set_solver..|].
    intros b Hb. specialize (H6 b Hb). set_solver.
  - rewrite list_to_set_app_L. repeat split; [set_solver..|]. discriminate.
Qed.

Lemma binds_exactly_assign t : forall v, binds_exactly (target_binds t) (assign L t v).
Proof.
  induction t as [c|x|o a IH|o i IHo IHi|f args kws IHf IHa IHk|l op r IHl IHr
                 |op l r IHl IHr|c a b IHc IHa IHb|es IH|es IH|es IH|v IH]
    using expr_nested_ind; intros v0; simpl;
    try (apply binds_exactly_keeps, keeps_env_ret).
  - apply binds_exactly_store_name.
  - apply binds_exactly_keeps, keeps_env_bind; [apply keeps_env_eval|].
    intros ?. apply keeps_env_perform.
  - apply binds_exactly_keeps, keeps_env_bind; [apply keeps_env_eval|].
    intros ?. apply keeps_env_bind; [apply keeps_env_eval|].
    intros ?. apply keeps_env_perform.
  - apply (binds_exactly_bind [] _).
    { apply binds_exactly_keeps, keeps_env_perform. }
    intros vs. revert vs.
    induction IH as [|t ts Ht _ IHts]; intros vs; simpl.
    + apply binds_exactly_keeps, keeps_env_ret.
    + apply binds_exactly_bind; [apply Ht | intros _; apply IHts].
  - apply (binds_exactly_bind [] _).
    { apply binds_exactly_keeps, keeps_env_perform. }
    intros vs. revert vs.
    induction IH as [|t ts Ht _ IHts]; intros vs; simpl.
    + apply binds_exactly_keeps, keeps_env_ret.
    + apply binds_exactly_bind; [apply Ht | intros _; apply IHts].
Qed.

Lemma binds_exactly_exec_stmt s m :
  exec_stmt L s = Some m -> binds_exactly (binds s) m.
Proof.
  destruct s as [m0 [a|]|m0 n a|t v|v| | | | | | | | | | |]; simpl;
    try discriminate.
  - intros [= <-]. apply (binds_exactly_bind [] [a]).
    + apply binds_exactly_keeps, keeps_env_perform.
    + intros v. apply binds_exactly_store_name.
  - intros [= <-]. apply (binds_exactly_bind [] [_]).
    + apply binds_exactly_keeps, keeps_env_perform.
    + intros v. apply (binds_exactly_bind [] [_]).
      * apply binds_exactly_keeps. case_bool_decide.
        -- apply keeps_env_ret.
        -- apply keeps_env_perform.
      * intros _. apply binds_exactly_store_name.
  - intros [= <-]. destruct a as [a|]; simpl;
      (apply (binds_exactly_bind [] [_]);
       [apply binds_exactly_keeps, keeps_env_perform
       |intros v; apply binds_exactly_store_name]).
  - destruct (assignable t); [|discriminate]. intros [= <-].
    apply (binds_exactly_bind [] _).
    + apply binds_exactly_keeps, keeps_env_eval.
    + intros x. apply binds_exactly_assign.
  - intros [= <-]. apply (binds_exactly_bind [] []).
    + apply binds_exactly_keeps, keeps_env_eval.
    + intros _. apply binds_exactly_keeps, keeps_env_ret.
  - intros [= <-]. apply binds_exactly_keeps, keeps_env_ret.
Qed.

(** The variables of the session after a program has run: those there
    before and, of the names its statements bind, all when it finished and
    some when it failed. *)
Theorem exec_variables p :
  forall st,
    dom (env st) ⊆ dom (env (snd (exec L p st)))
    /\ dom (env (snd (exec L p st)))
       ⊆ dom (env st) ∪ list_to_set (flat_map binds p)
    /\ (fst (exec L p st) = Finished ->
        dom (env (snd (exec L p st)))
        = dom (env st) ∪ list_to_set (flat_map binds p)).
Proof.
  induction p as [|s p IH]; intros st; simpl.
  - repeat split; set_solver.
  - destruct (exec_stmt L s) as [m|] eqn:Hm; simpl.
    2: { repeat split; [set_solver..|discriminate]. }
    destruct (binds_exactly_exec_stmt s m Hm st) as (H1 & H2 & H3).
    destruct (m st) as [[[]|x] st1]; simpl in *.
    + destruct (IH st1) as (H4 & H5 & H6). specialize (H3 tt eq_refl).
      rewrite list_to_set_app_L. repeat split; [set_solver..|].
      intros Hfin. rewrite (H6 Hfin). set_solver.
    + rewrite list_to_set_app_L. repeat split; [set_solver..|discriminate].
Qed.

End Session.

Section BindingOrder.

Context {W : Type} (L : library W).

Implicit Types (st : state W).

Lemma all_or_nothing_keeps {A} (m : M (W := W) A) :
  keeps_env m -> all_or_nothing [] m.
Proof.
  intros Hm st. rewrite Hm. destruct (fst (m st)); [|done].
  simpl. by rewrite union_empty_r_L.
Qed.

Lemma all_or_nothing_after {A B} xs (m : M (W := W) A) (f : A -> M B) :
  keeps_env m -> (forall a, all_or_nothing xs (f a)) ->
  all_or_nothing xs (bind m f).
Proof.
  intros Hm Hf st. unfold bind. specialize (Hm st).
  destruct (m st) as [[a|x] st1]; simpl in *; [|done].
  specialize (Hf a st1). rewrite Hm in Hf. exact Hf.
Qed.

Lemma all_or_nothing_store_name x v :
  all_or_nothing (W := W) [x] (store_name x v).
Proof. intros st. simpl. rewrite dom_insert_L. set_solver. Qed.

(** Storing into names cannot fail. *)
Lemma assign_names ts :
  forallb (fun t => bool_decide (is_Some (name_of t))) ts = true ->
  forall vs st,
    exists st',
      (fix go (ts : list expr) (vs : list value) : M unit :=
         match ts with
         | t :: ts => bind (assign L t (hd VNone vs)) (fun _ => go ts (tl vs))
         | [] => ret tt
         end) ts vs st = (Ok tt, st')
      /\ dom (env st') = dom (env st) ∪ list_to_set (flat_map target_binds ts).
Proof.
  induction ts as [|t ts IH]; simpl; intros Hts vs st.
  - exists st. split; [done|]. by rewrite union_empty_r_L.
  - apply andb_prop in Hts as [Ht Hts].
    apply bool_decide_eq_true in Ht as [x Hx].
    destruct t; try discriminate. simpl in Hx. injection Hx as ->.
    unfold bind at 1. simpl.
    destruct (IH Hts (tl vs) (State (<[x:=hd VNone vs]> (env st)) (world st)
                                (trace st) (stdout st))) as (st' & Hgo & Hdom).
    exists st'. split; [exact Hgo|].
    rewrite Hdom. simpl. rewrite dom_insert_L. set_solver.
Qed.

Lemma all_or_nothing_assign t v :
  plain_target t = true -> all_or_nothing (target_binds t) (assign L t v).
Proof.
  destruct t; simpl; try discriminate; intros Ht.
  - apply all_or_nothing_store_name.
  - apply all_or_nothing_keeps, keeps_env_bind; [apply keeps_env_eval|].
    intros ?. apply keeps_env_perform.
  - apply all_or_nothing_keeps, keeps_env_bind; [apply keeps_env_eval|].
    intros ?. apply keeps_env_bind; [apply keeps_env_eval|].
    intros ?. apply keeps_env_perform.
  - apply all_or_nothing_after; [apply keeps_env_perform|].
    intros vs st. destruct (assign_names _ Ht vs st) as (st' & -> & Hdom).
    exact Hdom.
  - apply all_or_nothing_after; [apply keeps_env_perform|].
    intros vs st. destruct (assign_names _ Ht vs st) as (st' & -> & Hdom).
    exact Hdom.
Qed.

Lemma all_or_nothing_exec_stmt s m :
  binds_at_once s = true -> exec_stmt L s = Some m ->
  all_or_nothing (binds s) m.
Proof.
  destruct s as [m0 [a|]|m0 n a|t v|v| | | | | | | | | | |]; simpl;
    try discriminate; intros Hs.
  - intros [= <-]. apply all_or_nothing_after; [apply keeps_env_perform|].
    intros v. apply all_or_nothing_store_name.
  - intros [= <-]. apply all_or_nothing_after; [apply keeps_env_perform|].
    intros v. apply all_or_nothing_after.
    + case_bool_decide; [apply keeps_env_ret|apply keeps_env_perform].
    + intros _. apply all_or_nothing_store_name.
  - intros [= <-]. destruct a as [a|]; simpl;
      (apply all_or_nothing_after; [apply keeps_env_perform|]);
      intros v; apply all_or_nothing_store_name.
  - destruct (assignable t); [|discriminate]. intros [= <-].
    apply all_or_nothing_after; [apply keeps_env_eval|].
    intros x. by apply all_or_nothing_assign.
  - intros [= <-]. apply all_or_nothing_keeps, keeps_env_bind;
      [apply keeps_env_eval|]. intros _. apply keeps_env_ret.
  - intros [= <-]. apply all_or_nothing_keeps, keeps_env_ret.
Qed.

(** Variables are bound in the order of the statements: after a run they
    are those there before and those of the statements that returned. *)
Theorem exec_binds_in_order p :
  forallb binds_at_once p = true ->
  forall st,
    exists k,
      k <= length p
      /\ (fst (exec L p st) = Finished -> k = length p)
      /\ dom (env (snd (exec L p st)))
         = dom (env st) ∪ list_to_set (flat_map binds (take k p)).
Proof.
  induction p as [|s p IH]; simpl; intros Hp st.
  - exists 0. split; [done|]. split; [done|]. simpl. by rewrite union_empty_r_L.
  - apply andb_prop in Hp as [Hs Hp].
    destruct (exec_stmt L s) as [m|] eqn:Hm.
    2: { exists 0. split; [lia|]. split; [done|]. simpl. by rewrite union_empty_r_L. }
    pose proof (all_or_nothing_exec_stmt s m Hs Hm st) as Hst.
    destruct (m st) as [[[]|x] st1]; simpl in *.
    + destruct (IH Hp st1) as (k & Hk & Hfin & Hdom).
      exists (S k). split; [lia|]. split; [intros H; by rewrite Hfin|].
      rewrite Hdom, Hst. simpl. rewrite list_to_set_app_L. set_solver.
    + exists 0. split; [lia|]. split; [done|]. simpl.
      by rewrite Hst, union_empty_r_L.
Qed.

(** The same for a run of a notebook, by name. *)
Lemma run_variables nb w x :
  (bound (snd (run L nb w)) x -> x ∈ variables nb)
  /\ (fst (run L nb w) = Finished ->
      x ∈ variables nb -> bound (snd (run L nb w)) x).
Proof.
  unfold run, variables.
  destruct (exec_variables L (program nb) (initial w)) as (_ & Hsub & Hfin).
  cbn [initial env] in Hsub, Hfin.
  rewrite dom_empty_L, union_empty_l_L in Hsub, Hfin.
  unfold bound. rewrite <- elem_of_dom, elem_of_remove_dups. split.
  - intros Hx. apply Hsub in Hx. by apply elem_of_list_to_set in Hx.
  - intros Hrun Hx. rewrite (Hfin Hrun). by apply elem_of_list_to_set.
Qed.

Lemma run_binds_in_order nb w :
  forallb binds_at_once (program nb) = true ->
  exists k,
    k <= length (program nb)
    /\ (fst (run L nb w) = Finished -> k = length (program nb))
    /\ forall x, bound (snd (run L nb w)) x <-> x ∈ bound_by k nb.
Proof.
  intros Hp. unfold run, bound_by.
  destruct (exec_binds_in_order (program nb) Hp (initial w))
    as (k & Hk & Hfin & Hdom).
  exists k. split; [done|]. split; [done|]. intros x.
  unfold bound. rewrite <- elem_of_dom, Hdom. cbn [initial env].
  rewrite dom_empty_L, union_empty_l_L. apply elem_of_list_to_set.
Qed.

End BindingOrder.

Lemma checked_up_to (P : nat -> bool) n :
  forallb P (seq 0 (S n)) = true -> forall k, k <= n -> P k = true.
Proof.
  intros H k Hk. rewrite forallb_forall in H. apply H, in_seq. lia.
Qed.



(* ===================================================================== *)
(** ** The probe of cell 12 *)
(* ===================================================================== *)

Section Probe.

Context {W : Type} (L : library W).

Implicit Types (st : state W).

Lemma probing_ret {A} (Q : A -> Prop) a : Q a -> probing (W := W) Q (ret a).
Proof.
  intros HQ st Hst. simpl. split; [done|].
  split; [exists []; by rewrite app_nil_r|]. by intros a' [= <-].
Qed.

Lemma probing_weaken {A} (Q Q' : A -> Prop) (m : M (W := W) A) :
  probing Q m -> (forall a, Q a -> Q' a) -> probing Q' m.
Proof.
  intros Hm HQ st Hst. destruct (Hm st Hst) as (He & Hl & Ha).
  split; [done|]. split; [done|]. intros a Hr. by apply HQ, Ha.
Qed.

Lemma probing_bind {A B} (Q : A -> Prop) (Q' : B -> Prop)
    (m : M (W := W) A) (f : A -> M B) :
  probing Q m -> (forall a, Q a -> probing Q' (f a)) -> probing Q' (bind m f).
Proof.
  intros Hm Hf st Hst. unfold bind.
  destruct (Hm st Hst) as (He & (l & Hl & HP) & HQ).
  destruct (m st) as [[a|x] st1]; simpl in *.
  - destruct (Hf a (HQ a eq_refl) st1 He) as (He2 & (l2 & Hl2 & HP2) & HQ2).
    split; [done|]. split; [|done].
    exists (l ++ l2). rewrite Hl2, Hl, app_assoc. split; [done|].
    by apply Forall_app.
  - split; [done|]. split; [by exists l|]. by intros a [=].
Qed.

Lemma probing_perform {A} (Q : A -> Prop) (s : site) (op : W -> result A * W) :
  (forall w, probe_answered (Event s (failure (fst (op w))))) ->
  (forall w a, fst (op w) = Ok a -> Q a) ->
  probing Q (perform s op).
Proof.
  intros Hev HQ st Hst. unfold perform.
  specialize (Hev (world st)). specialize (HQ (world st)).
  destruct (op (world st)) as [r w']; simpl in *.
  split; [done|]. split; [|done].
  eexists. split; [done|]. by apply Forall_singleton.
Qed.

Lemma probing_load_name x :
  probing (W := W) (answer (Name x)) (load_name x).
Proof.
  intros st Hst. unfold load_name, perform. simpl.
  split; [done|]. split.
  - eexists. split; [done|]. by apply Forall_singleton.
  - intros v Hv ->. unfold resolve in Hv. rewrite Hst in Hv.
    rewrite bool_decide_eq_true_2 in Hv
      by (apply (bool_decide_unpack _); vm_compute; exact I).
    by injection Hv as <-.
Qed.

Lemma probing_mapM {A B} (R : A -> B -> Prop) (f : A -> M (W := W) B) l :
  Forall (fun a => probing (R a) (f a)) l ->
  probing (fun bs => Forall2 R l bs) (mapM f l).
Proof.
  induction 1 as [|a l Ha _ IH]; simpl.
  - by apply probing_ret.
  - eapply probing_bind; [exact Ha|]. intros b Hb.
    eapply probing_bind; [exact IH|]. intros bs Hbs.
    apply probing_ret. by constructor.
Qed.

Lemma is_probe_inv e :
  is_probe e = true ->
  exists o a, e = Call (Name "hasattr") [o; Constant (CStr a)] [].
Proof.
  destruct e as [| | | |f args kws| | | | | | |]; try discriminate.
  destruct f; try discriminate.
  destruct args as [|o [|c rest]]; try discriminate.
  destruct c as [c| | | | | | | | | | |]; try discriminate.
  destruct c; try discriminate.
  destruct rest; try discriminate.
  destruct kws; try discriminate.
  simpl. intros H. apply bool_decide_eq_true in H as ->. eauto.
Qed.

Lemma dispatch_probe o a :
  dispatch_of (VBuiltin "hasattr") [o; VStr a] [] = ToHasattr o a.
Proof. reflexivity. Qed.

(** The probe itself: a lookup that ends in [AttributeError] is the answer
    [False]. *)
Lemma probing_hasattr e o a :
  probing (fun v => exists b, v = VBool b) (builtin_hasattr L e o a).
Proof.
  apply probing_perform.
  - intros w. unfold probe_answered, hasattr_op. simpl. intros _ x.
    destruct (lib_getattr L o a w) as [[v|y] w']; simpl; [done|].
    destruct (is_attribute_error y) eqn:Hy; simpl; [done|].
    by intros [= <-].
  - intros w v. unfold hasattr_op.
    destruct (lib_getattr L o a w) as [[u|y] w']; simpl.
    + intros [= <-]. eauto.
    + destruct (is_attribute_error y); simpl; [|done]. intros [= <-]. eauto.
Qed.

Lemma probing_write s : probing (W := W) (fun _ => True) (write s).
Proof.
  intros st Hst. simpl. split; [done|].
  split; [exists []; by rewrite app_nil_r|done].
Qed.

(** A call that is not a probe. *)
Lemma probing_call e fv avs kvs :
  is_probe e = false -> probing (fun _ => True) (call L e fv avs kvs).
Proof.
  intros He.
  assert (Hev : forall r : option exn, probe_answered (Event (AtCall e) r)).
  { intros r. unfold probe_answered. simpl. by rewrite He. }
  unfold call. destruct (dispatch_of fv avs kvs).
  - unfold builtin_print.
    eapply probing_bind; [by apply (probing_perform (fun _ => True))|].
    intros ss _. eapply probing_bind; [apply probing_write|].
    intros _ _. by apply probing_ret.
  - by apply probing_perform.
  - by apply probing_perform.
Qed.

(** Taking the truth of a probe's answer. *)
Lemma probing_truth l a :
  answer l a -> probing (fun _ => True) (perform (AtBool l) (truth_op L a)).
Proof.
  intros Ha. apply probing_perform; [|done].
  intros w. unfold probe_answered. simpl. intros Hl.
  destruct (is_probe_inv l Hl) as (o & s & ->).
  destruct (Ha Hl) as [b ->]. done.
Qed.

Lemma eval_call f args kws :
  eval L (Call f args kws) =
    bind (eval L f) (fun fv =>
    bind (mapM (eval L) args) (fun avs =>
    bind (mapM (fun kw => bind (eval L (snd kw)) (fun v => ret (fst kw, v))) kws)
         (fun kvs => call L (Call f args kws) fv avs kvs))).
Proof. reflexivity. Qed.

Ltac trivial_answer :=
  apply (probing_weaken (fun _ => True)); [|by (intros ? _; simpl; intros [=])].

Lemma probing_eval e : probing (answer e) (eval L e).
Proof.
  induction e as [c|x|v a IH|v s IHv IHs|f args kws IHf IHa IHk|l op r IHl IHr
                 |op l r IHl IHr|c a b IHc IHa IHb|es IH|es IH|es IH|v IH]
    using expr_nested_ind.
  - by apply probing_ret.
  - apply probing_load_name.
  - simpl eval. trivial_answer.
    eapply probing_bind; [exact IH|]. intros o _.
    by apply (probing_perform (fun _ => True)).
  - simpl eval. trivial_answer.
    eapply probing_bind; [exact IHv|]. intros o _.
    eapply probing_bind; [exact IHs|]. intros i _.
    by apply (probing_perform (fun _ => True)).
  - destruct (is_probe (Call f args kws)) eqn:Hp.
    + destruct (is_probe_inv _ Hp) as (o & a & [= -> -> ->]).
      rewrite eval_call.
      eapply probing_bind; [exact IHf|]. intros fv Hfv.
      rewrite (Hfv eq_refl).
      eapply probing_bind; [apply (probing_mapM answer), IHa|].
      intros avs Havs.
      apply Forall2_cons_inv_l in Havs as (ov & avs' & _ & Havs & ->).
      apply Forall2_cons_inv_l in Havs as (sv & avs'' & Hsv & Havs & ->).
      apply Forall2_nil_inv_l in Havs as ->.
      simpl in Hsv. subst sv.
      eapply probing_bind; [by apply (probing_ret (fun kvs => kvs = []))|].
      intros kvs ->. unfold call. rewrite dispatch_probe.
      eapply probing_weaken; [apply probing_hasattr|]. by intros v Hv _.
    + apply (probing_weaken (fun _ => True)).
      2: { intros v _ Hq. change (is_probe (Call f args kws) = true) in Hq.
           congruence. }
      rewrite eval_call.
      eapply probing_bind; [exact IHf|]. intros fv _.
      eapply probing_bind; [apply (probing_mapM answer), IHa|]. intros avs _.
      eapply probing_bind.
      { apply (probing_mapM (fun _ _ => True)).
        eapply Forall_impl; [exact IHk|]. intros kw Hkw. simpl.
        eapply probing_bind; [exact Hkw|]. intros v _. by apply probing_ret. }
      intros kvs _. by apply probing_call.
  - simpl eval. trivial_answer.
    eapply probing_bind; [exact IHl|]. intros a _.
    eapply probing_bind; [exact IHr|]. intros b _.
    by apply (probing_perform (fun _ => True)).
  - trivial_answer.
    destruct op; simpl eval;
      (eapply probing_bind; [exact IHl|]); intros a Ha;
      (eapply probing_bind; [by apply probing_truth|]); intros [] _;
      try (by apply probing_ret);
      (eapply probing_weaken; [exact IHr|done]).
  - simpl eval. trivial_answer.
    eapply probing_bind; [exact IHc|]. intros v Hv.
    eapply probing_bind; [by apply probing_truth|]. intros [] _.
    + eapply probing_weaken; [exact IHa|done].
    + eapply probing_weaken; [exact IHb|done].
  - simpl eval. trivial_answer.
    eapply probing_bind; [apply (probing_mapM answer), IH|]. intros vs _.
    by apply probing_ret.
  - simpl eval. trivial_answer.
    eapply probing_bind; [apply (probing_mapM answer), IH|]. intros vs _.
    by apply probing_ret.
  - simpl eval. trivial_answer.
    eapply probing_bind; [apply (probing_mapM answer), IH|]. intros vs _.
    by apply probing_ret.
  - simpl eval. trivial_answer.
    eapply probing_bind; [exact IH|]. intros x _.
    eapply probing_bind; [by apply (probing_perform (fun _ => True))|].
    intros s _. by apply probing_ret.
Qed.

Lemma probing_store_name x v :
  x <> "hasattr" -> probing (W := W) (fun _ => True) (store_name x v).
Proof.
  intros Hx st Hst. simpl. split; [by rewrite lookup_insert_ne|].
  split; [exists []; by rewrite app_nil_r|done].
Qed.

Lemma probing_assign t :
  forall v, "hasattr" ∉ target_binds t ->
            probing (fun _ => True) (assign L t v).
Proof.
  induction t as [c|x|o a IH|o i IHo IHi|f args kws IHf IHa IHk|l op r IHl IHr
                 |op l r IHl IHr|c a b IHc IHa IHb|es IH|es IH|es IH|v IH]
    using expr_nested_ind; intros v0 Ht; simpl;
    try (by apply probing_ret).
  - apply probing_store_name. set_solver.
  - eapply probing_bind; [apply probing_eval|]. intros ov _.
    by apply (probing_perform (fun _ => True)).
  - eapply probing_bind; [apply probing_eval|]. intros ov _.
    eapply probing_bind; [apply probing_eval|]. intros iv _.
    by apply (probing_perform (fun _ => True)).
  - eapply probing_bind; [by apply (probing_perform (fun _ => True))|].
    intros vs _. revert vs. simpl in Ht.
    induction IH as [|t ts Hthis _ IHts]; intros vs; simpl.
    + by apply probing_ret.
    + simpl in Ht. rewrite elem_of_app in Ht.
      eapply probing_bind; [apply Hthis; tauto|]. intros _ _.
      apply IHts. tauto.
  - eapply probing_bind; [by apply (probing_perform (fun _ => True))|].
    intros vs _. revert vs. simpl in Ht.
    induction IH as [|t ts Hthis _ IHts]; intros vs; simpl.
    + by apply probing_ret.
    + simpl in Ht. rewrite elem_of_app in Ht.
      eapply probing_bind; [apply Hthis; tauto|]. intros _ _.
      apply IHts. tauto.
Qed.

Lemma probing_exec_stmt s m :
  "hasattr" ∉ binds s -> exec_stmt L s = Some m -> probing (fun _ => True) m.
Proof.
  destruct s as [m0 [a|]|m0 n a|t v|v| | | | | | | | | | |]; simpl;
    try discriminate; intros Hs.
  - intros [= <-].
    eapply probing_bind; [by apply (probing_perform (fun _ => True))|].
    intros v _. apply probing_store_name. set_solver.
  - intros [= <-].
    eapply probing_bind; [by apply (probing_perform (fun _ => True))|].
    intros v _. eapply probing_bind.
    + case_bool_decide; [by apply (probing_ret (fun _ => True))|].
      by apply (probing_perform (fun _ => True)).
    + intros _ _. apply probing_store_name. set_solver.
  - intros [= <-]. unfold exec_import_from.
    eapply probing_bind; [by apply (probing_perform (fun _ => True))|].
    intros v _. apply probing_store_name. destruct a; set_solver.
  - destruct (assignable t); [|discriminate]. intros [= <-].
    eapply probing_bind; [apply probing_eval|]. intros x _.
    by apply probing_assign.
  - intros [= <-]. eapply probing_bind; [apply probing_eval|].
    intros _ _. by apply probing_ret.
  - intros [= <-]. by apply probing_ret.
Qed.

(** While no statement binds [hasattr], every probe of a program is
    answered. *)
Theorem exec_probes p :
  "hasattr" ∉ flat_map binds p ->
  forall st, env st !! "hasattr" = None ->
    exists l, trace (snd (exec L p st)) = trace st ++ l
              /\ Forall probe_answered l.
Proof.
  induction p as [|s p IH]; simpl; intros Hp st Hst.
  - exists []. by rewrite app_nil_r.
  - rewrite elem_of_app in Hp.
    destruct (exec_stmt L s) as [m|] eqn:Hm.
    2: { exists []. by rewrite app_nil_r. }
    destruct (probing_exec_stmt s m ltac:(tauto) Hm st Hst)
      as (He & (l & Hl & HP) & _).
    destruct (m st) as [[[]|x] st1]; simpl in *.
    + destruct (IH ltac:(tauto) st1 He) as (l2 & Hl2 & HP2).
      exists (l ++ l2). rewrite Hl2, Hl, app_assoc. split; [done|].
      by apply Forall_app.
    + by exists l.
Qed.

Lemma run_probes nb w :
  "hasattr" ∉ variables nb ->
  Forall probe_answered (trace (snd (run L nb w))).
Proof.
  unfold variables, run. rewrite elem_of_remove_dups. intros Hnb.
  destruct (exec_probes (program nb) Hnb (initial w)) as (l & Hl & HP).
  - apply lookup_empty.
  - by rewrite Hl.
Qed.

(** A run does not fail with the [AttributeError] of a probe. *)
Lemma failed_at_probe o (t : list event) x ev e :
  propagates o t -> Forall probe_answered t ->
  o = Failed x -> last t = Some ev -> at_site ev = AtCall e ->
  is_probe e = true -> is_attribute_error x = false.
Proof.
  intros Hpr Hall -> Hlast Hsite He.
  destruct Hpr as (t' & ev' & -> & _ & Hx).
  rewrite last_snoc in Hlast. injection Hlast as ->.
  rewrite Forall_app, Forall_singleton in Hall. destruct Hall as [_ Hev].
  unfold probe_answered in Hev. rewrite Hsite in Hev. by apply Hev.
Qed.

End Probe.


(** The probe at work: against a viewer without [jupyter_cell] the lookup
    ends in [AttributeError], the call of [hasattr] returns, and the run
    finishes. *)
Example probe_without_jupyter_cell :
  exists k,
    trace (snd (run (symbolic no_jupyter_cell) pin_cheat_list [])) !! k
    = Some (Event (AtCall jupyter_probe) None)
    /\ fst (run (symbolic no_jupyter_cell) pin_cheat_list []) = Finished.
Proof. exists 103. vm_compute. done. Qed.

(* ===================================================================== *)
(** ** The order and the number of the operations *)
(* ===================================================================== *)

Lemma along_prefix r o (t : list event) : along r o t -> sites t `prefix_of` r.
Proof. destruct o; simpl; [by intros ->|done|done]. Qed.

Lemma times_prefix c (l r : list site) :
  l `prefix_of` r -> times c l <= times c r.
Proof.
  intros [k ->]. unfold times. rewrite List.filter_app, length_app. lia.
Qed.

Lemma passes_sound a b r :
  forall seen, passes a b seen r = true ->
  forall r1 s r2, r = r1 ++ s :: r2 -> b s = true ->
    seen = true \/ Exists (fun s' => a s' = true) r1.
Proof.
  induction r as [|s0 r IH]; intros seen Hp r1 s r2 Hr Hb.
  - by destruct r1.
  - simpl in Hp. apply andb_prop in Hp as [Hhere Hrest].
    destruct r1 as [|s1 r1]; simpl in Hr; injection Hr as <- ->.
    + rewrite Hb in Hhere. simpl in Hhere. by left.
    + destruct (IH _ Hrest r1 s r2 eq_refl Hb) as [Hseen|Hex].
      * apply orb_prop in Hseen as [->|Ha]; [by left|].
        right. by apply Exists_cons_hd.
      * right. by apply Exists_cons_tl.
Qed.

(** Every operation of a run but the last has returned. *)
Lemma propagates_earlier o (t t1 t2 : list event) ev :
  propagates o t -> t = t1 ++ ev :: t2 -> Forall quiet t1.
Proof.
  destruct o as [|x|s]; simpl; [| |done].
  - intros Hq ->. by apply Forall_app in Hq as [Hq _].
  - intros (t' & ev' & -> & Hq & _) Ht.
    assert (Hpre : t1 `prefix_of` t').
    { destruct t2 as [|ev2 t2 _] using rev_ind.
      - apply app_inj_tail in Ht as [-> _]. done.
      - rewrite app_comm_cons, app_assoc in Ht.
        apply app_inj_tail in Ht as [-> _]. by apply prefix_app_r. }
    destruct Hpre as [k ->]. by apply Forall_app in Hq as [Hq _].
Qed.

Lemma along_done_before a b r o (t : list event) :
  passes a b false r = true -> along r o t -> propagates o t ->
  done_before a b t.
Proof.
  intros Hp Hal Hpr t1 ev t2 Ht Hb.
  pose proof (propagates_earlier _ _ _ _ _ Hpr Ht) as Hq.
  apply along_prefix in Hal as [k Hk].
  subst t. unfold sites in Hk. rewrite fmap_app, fmap_cons in Hk.
  rewrite <- app_assoc in Hk. simpl in Hk.
  destruct (passes_sound a b r false Hp _ _ _ Hk Hb) as [|Hex]; [done|].
  apply Exists_exists in Hex as (s' & Hs' & Ha).
  apply list_elem_of_fmap in Hs' as (ev' & -> & Hev').
  apply Exists_exists. exists ev'. split; [done|]. split; [done|].
  rewrite Forall_forall in Hq. by apply Hq.
Qed.

(** X4: what is read has been set.  In every run, whenever the mass or
    the inertia of the box is read, its density has been stored before
    (and the store returned); the same for the cylinder's inertia and its
    density; the cylinder is shown only after it has been transformed;
    the viewer is stored into [viz] before the models are loaded into it,
    and they are loaded before anything is displayed; [data.oMi] and
    [data.oMf] are read only after forward kinematics has run. *)
Theorem set_before_read :
  forall (W : Type) (L : library W) (w : W),
    done_before (is_store_of ["box_one"; "density"])
                (is_load_of ["box_one"; "mass"])
                (trace (snd (run L pin_cheat_list w)))
    /\ done_before (is_store_of ["box_one"; "density"])
                   (is_load_of ["box_one"; "moment_inertia"])
                   (trace (snd (run L pin_cheat_list w)))
    /\ done_before (is_store_of ["cylinder"; "density"])
                   (is_load_of ["cylinder"; "moment_inertia"])
                   (trace (snd (run L pin_cheat_list w)))
    /\ done_before (is_call_of ["cylinder"; "apply_transform"])
                   (is_call_of ["cylinder"; "show"])
                   (trace (snd (run L pin_cheat_list w)))
    /\ done_before (is_store_of ["viz"; "viewer"])
                   (is_call_of ["viz"; "loadViewerModel"])
                   (trace (snd (run L pin_cheat_list w)))
    /\ done_before (is_call_of ["viz"; "loadViewerModel"])
                   (is_call_of ["viz"; "display"])
                   (trace (snd (run L pin_cheat_list w)))
    /\ done_before (is_call_of ["pin"; "framesForwardKinematics"])
                   (is_load_of ["data"; "oMi"])
                   (trace (snd (run L pin_cheat_list w)))
    /\ done_before (is_call_of ["pin"; "framesForwardKinematics"])
                   (is_load_of ["data"; "oMf"])
                   (trace (snd (run L pin_cheat_list w))).
Proof.
  intros W L w.
  destruct (notebook_along L w) as [b Hal].
  pose proof (notebook_propagates L w) as Hpr.
  repeat split;
    (eapply along_done_before; [|exact Hal|exact Hpr]);
    destruct b; vm_compute; reflexivity.
Qed.

Lemma along_times c r o (t : list event) n :
  along r o t -> times c r = n ->
  times c (sites t) <= n /\ (o = Finished -> times c (sites t) = n).
Proof.
  intros Hal <-. split.
  - by apply times_prefix, (along_prefix r o).
  - intros ->. simpl in Hal. by rewrite Hal.
Qed.

Lemma along_length r o (t : list event) :
  along r o t ->
  length t <= length r /\ (o = Finished -> length t = length r).
Proof.
  intros Hal. rewrite <- (length_fmap at_site t). fold (sites t). split.
  - by apply prefix_length, (along_prefix r o).
  - intros ->. simpl in Hal. by rewrite Hal.
Qed.

(** X5: the work of a run is bounded.  No run performs more than 242
    operations; the URDF file is parsed at most once, the viewer is
    connected at most once, the cylinder is shown at most once and
    forward kinematics runs at most twice; a run that finishes has done
    each exactly that often, in at least 238 operations. *)
Theorem work_is_bounded :
  forall (W : Type) (L : library W) (w : W),
    length (trace (snd (run L pin_cheat_list w))) <= 242
    /\ times (is_call_of ["pin"; "buildModelsFromUrdf"])
             (sites (trace (snd (run L pin_cheat_list w)))) <= 1
    /\ times (is_call_of ["meshcat"; "Visualizer"])
             (sites (trace (snd (run L pin_cheat_list w)))) <= 1
    /\ times (is_call_of ["cylinder"; "show"])
             (sites (trace (snd (run L pin_cheat_list w)))) <= 1
    /\ times (is_call_of ["pin"; "framesForwardKinematics"])
             (sites (trace (snd (run L pin_cheat_list w)))) <= 2
    /\ (fst (run L pin_cheat_list w) = Finished ->
        238 <= length (trace (snd (run L pin_cheat_list w)))
        /\ times (is_call_of ["pin"; "buildModelsFromUrdf"])
                 (sites (trace (snd (run L pin_cheat_list w)))) = 1
        /\ times (is_call_of ["meshcat"; "Visualizer"])
                 (sites (trace (snd (run L pin_cheat_list w)))) = 1
        /\ times (is_call_of ["cylinder"; "show"])
                 (sites (trace (snd (run L pin_cheat_list w)))) = 1
        /\ times (is_call_of ["pin"; "framesForwardKinematics"])
                 (sites (trace (snd (run L pin_cheat_list w)))) = 2).
Proof.
  intros W L w.
  destruct (notebook_along L w) as [b Hal].
  destruct (along_length _ _ _ Hal) as [Hlen Hlen'].
  assert (Hroute : 238 <= length (program_route b (program pin_cheat_list))
                   <= 242).
  { destruct b; vm_compute; lia. }
  destruct (along_times (is_call_of ["pin"; "buildModelsFromUrdf"])
              _ _ _ 1 Hal) as [H1 H1']; [by destruct b; vm_compute|].
  destruct (along_times (is_call_of ["meshcat"; "Visualizer"])
              _ _ _ 1 Hal) as [H2 H2']; [by destruct b; vm_compute|].
  destruct (along_times (is_call_of ["cylinder"; "show"])
              _ _ _ 1 Hal) as [H3 H3']; [by destruct b; vm_compute|].
  destruct (along_times (is_call_of ["pin"; "framesForwardKinematics"])
              _ _ _ 2 Hal) as [H4 H4']; [by destruct b; vm_compute|].
  split; [lia|]. do 4 (split; [assumption|]).
  intros Hfin. split; [rewrite (Hlen' Hfin); lia|]. auto.
Qed.

(** The check tells orders apart: [model.nq] is read before forward
    kinematics has run, and the cylinder's volume before its density is
    set. *)
Example order_is_checked :
  passes (is_call_of ["pin"; "framesForwardKinematics"])
         (is_load_of ["model"; "nq"]) false
         (program_route true (program pin_cheat_list)) = false
  /\ passes (is_store_of ["cylinder"; "density"])
            (is_load_of ["cylinder"; "volume"]) false
            (program_route true (program pin_cheat_list)) = false.
Proof. vm_compute. done. Qed.

(* ===================================================================== *)
(** ** What the notebook prints *)
(* ===================================================================== *)

Section Printing.

Context {W : Type} (L : library W) (HL : plain_library L).

Implicit Types (st : state W).

Lemma silent_ret {A} (Q : A -> Prop) a : Q a -> silent (W := W) Q (ret a).
Proof. intros HQ st Hst. simpl. split; [done|]. split; [done|]. by intros ? [= <-]. Qed.

Lemma silent_weaken {A} (Q Q' : A -> Prop) (m : M (W := W) A) :
  silent Q m -> (forall a, Q a -> Q' a) -> silent Q' m.
Proof.
  intros Hm HQ st Hst. destruct (Hm st Hst) as (He & Hout & Ha).
  split; [done|]. split; [done|]. intros a Hr. by apply HQ, Ha.
Qed.

Lemma silent_bind {A B} (Q : A -> Prop) (Q' : B -> Prop)
    (m : M (W := W) A) (f : A -> M B) :
  silent Q m -> (forall a, Q a -> silent Q' (f a)) -> silent Q' (bind m f).
Proof.
  intros Hm Hf st Hst. unfold bind.
  destruct (Hm st Hst) as (He & Hout & HQ).
  destruct (m st) as [[a|x] st1]; simpl in *.
  - destruct (Hf a (HQ a eq_refl) st1 He) as (He2 & Hout2 & HQ2).
    split; [done|]. split; [congruence|done].
  - split; [done|]. split; [done|]. by intros a [=].
Qed.

Lemma silent_perform {A} (Q : A -> Prop) (s : site) (op : W -> result A * W) :
  (forall w a, fst (op w) = Ok a -> Q a) -> silent Q (perform s op).
Proof.
  intros HQ st Hst. unfold perform. specialize (HQ (world st)).
  destruct (op (world st)) as [r w']; simpl in *. done.
Qed.

Lemma silent_load_name x :
  x <> "print" ->
  silent (W := W)
    (fun v => v <> VBuiltin "print" /\ (x ∉ builtins -> plain v = true))
    (load_name x).
Proof.
  intros Hx st [Hp Hplain]. unfold load_name, perform. simpl.
  split; [done|]. split; [done|]. intros v. unfold resolve.
  destruct (env st !! x) as [u|] eqn:Hu.
  - intros [= <-]. apply Hplain in Hu. split; [|done].
    intros ->. discriminate.
  - case_bool_decide; [|done]. intros [= <-]. split; [congruence|done].
Qed.

Lemma silent_mapM {A B} (R : A -> B -> Prop) (f : A -> M (W := W) B) l :
  Forall (fun a => silent (R a) (f a)) l ->
  silent (fun bs => Forall2 R l bs) (mapM f l).
Proof.
  induction 1 as [|a l Ha _ IH]; simpl.
  - by apply silent_ret.
  - eapply silent_bind; [exact Ha|]. intros b Hb.
    eapply silent_bind; [exact IH|]. intros bs Hbs.
    apply silent_ret. by constructor.
Qed.

Lemma dispatch_print_inv fv avs kvs :
  dispatch_of fv avs kvs = ToPrint -> fv = VBuiltin "print".
Proof.
  unfold dispatch_of. destruct fv; try discriminate.
  destruct kvs; try discriminate.
  case_bool_decide; [congruence|]. case_bool_decide; [|discriminate].
  repeat case_match; discriminate.
Qed.

Lemma hasattr_is_bool o a w v :
  fst (hasattr_op L o a w) = Ok v -> exists b, v = VBool b.
Proof.
  unfold hasattr_op. destruct (lib_getattr L o a w) as [[u|y] w']; simpl.
  - intros [= <-]. eauto.
  - destruct (is_attribute_error y); simpl; [|done]. intros [= <-]. eauto.
Qed.

(** A call of anything but the builtin [print] prints nothing. *)
Lemma silent_call e fv avs kvs :
  fv <> VBuiltin "print" ->
  silent (fun v => plain v = true) (call L e fv avs kvs).
Proof.
  intros Hfv. unfold call. destruct (dispatch_of fv avs kvs) eqn:Hd.
  - by apply dispatch_print_inv in Hd.
  - apply silent_perform. intros w v Hv.
    by destruct (hasattr_is_bool _ _ _ _ Hv) as [b ->].
  - apply silent_perform. intros w v. apply (plain_call L HL).
Qed.

Lemma plain_constant c : plain (constant_value c) = true.
Proof. by destruct c. Qed.

Lemma values_plain es vs :
  Forall2 value_of es vs -> forallb plain vs = true.
Proof.
  induction 1 as [|e v es vs [Hv _] _ IH]; simpl; [done|].
  by rewrite Hv, IH.
Qed.

Lemma values_fill es vs :
  Forall2 value_of es vs ->
  fills (str_of <$> es) (String.concat "" (text_of <$> vs)).
Proof.
  intros H. exists (text_of <$> vs). split; [|done].
  induction H as [|e v es vs [_ Hv] _ IH]; simpl; constructor; [|done].
  intros lit He. destruct e as [[]| | | | | | | | | | |]; try discriminate.
  injection He as ->. by rewrite Hv.
Qed.

Ltac only_plain :=
  apply (silent_weaken (fun v => plain v = true));
    [|by (intros ? ?; split)].

Lemma tame_callee f :
  match f with
  | Name x => negb (bool_decide (x = "print"))
  | _ => tame f
  end = true ->
  (tame f = true -> silent (value_of f) (eval L f)) ->
  silent (fun fv => fv <> VBuiltin "print") (eval L f).
Proof.
  intros Hf IH.
  assert (Hplain : forall v, value_of f v -> v <> VBuiltin "print").
  { intros v [Hv _] ->. discriminate. }
  destruct f; try (eapply silent_weaken; [by apply IH|exact Hplain]).
  apply negb_true_iff, bool_decide_eq_false in Hf.
  eapply silent_weaken; [by apply silent_load_name|]. by intros v [Hv _].
Qed.

Lemma eval_tame e : tame e = true -> silent (value_of e) (eval L e).
Proof.
  induction e as [c|x|v a IH|v s IHv IHs|f args kws IHf IHa IHk|l op r IHl IHr
                 |op l r IHl IHr|c a b IHc IHa IHb|es IH|es IH|es IH|v IH]
    using expr_nested_ind; intros He.
  - apply silent_ret. split; [apply plain_constant|done].
  - simpl in He. apply negb_true_iff, bool_decide_eq_false in He.
    eapply silent_weaken.
    + apply silent_load_name. intros ->. apply He.
      apply (bool_decide_unpack _). vm_compute. exact I.
    + intros v [_ Hv]. split; [by apply Hv|done].
  - simpl in He. simpl eval. only_plain.
    eapply silent_bind; [by apply IH|]. intros o _.
    apply silent_perform. intros w u. apply (plain_getattr L HL).
  - simpl in He. apply andb_prop in He as [He1 He2]. simpl eval. only_plain.
    eapply silent_bind; [by apply IHv|]. intros o _.
    eapply silent_bind; [by apply IHs|]. intros i _.
    apply silent_perform. intros w u. apply (plain_getitem L HL).
  - cbn [tame] in He. apply andb_prop in He as [He Hk].
    apply andb_prop in He as [Hf Ha].
    rewrite forallb_forall in Ha, Hk.
    only_plain.
    change (eval L (Call f args kws)) with
      (bind (eval L f) (fun fv =>
       bind (mapM (eval L) args) (fun avs =>
       bind (mapM (fun kw => bind (eval L (snd kw)) (fun v => ret (fst kw, v))) kws)
            (fun kvs => call L (Call f args kws) fv avs kvs)))).
    eapply silent_bind; [by apply tame_callee|]. intros fv Hfv.
    eapply silent_bind.
    { apply (silent_mapM value_of). rewrite Forall_forall in IHa |- *.
      intros a Hin. apply IHa; [done|]. by apply Ha, list_elem_of_In. }
    intros avs _.
    eapply silent_bind.
    { apply (silent_mapM (fun _ _ => True)). rewrite Forall_forall in IHk |- *.
      intros kw Hin. eapply silent_bind.
      - apply IHk; [done|]. by apply (Hk kw), list_elem_of_In.
      - intros v _. by apply silent_ret. }
    intros kvs _. by apply silent_call.
  - simpl in He. apply andb_prop in He as [He1 He2]. simpl eval. only_plain.
    eapply silent_bind; [by apply IHl|]. intros a _.
    eapply silent_bind; [by apply IHr|]. intros b _.
    apply silent_perform. intros w u. apply (plain_binop L HL).
  - simpl in He. apply andb_prop in He as [He1 He2]. only_plain.
    destruct op; simpl eval;
      (eapply silent_bind; [by apply IHl|]); intros a [Ha _];
      (eapply silent_bind; [by apply (silent_perform (fun _ => True))|]);
      intros [] _; try (by apply silent_ret);
      (eapply silent_weaken; [by apply IHr|by intros ? []]).
  - simpl in He. apply andb_prop in He as [He He3].
    apply andb_prop in He as [He1 He2]. simpl eval. only_plain.
    eapply silent_bind; [by apply IHc|]. intros v _.
    eapply silent_bind; [by apply (silent_perform (fun _ => True))|].
    intros [] _.
    + eapply silent_weaken; [by apply IHa|by intros ? []].
    + eapply silent_weaken; [by apply IHb|by intros ? []].
  - simpl in He. rewrite forallb_forall in He. simpl eval. only_plain.
    eapply silent_bind.
    { apply (silent_mapM value_of). rewrite Forall_forall in IH |- *.
      intros a Hin. apply IH; [done|]. by apply He, list_elem_of_In. }
    intros vs Hvs. apply silent_ret. simpl. by apply values_plain in Hvs.
  - simpl in He. rewrite forallb_forall in He. simpl eval. only_plain.
    eapply silent_bind.
    { apply (silent_mapM value_of). rewrite Forall_forall in IH |- *.
      intros a Hin. apply IH; [done|]. by apply He, list_elem_of_In. }
    intros vs Hvs. apply silent_ret. simpl. by apply values_plain in Hvs.
  - simpl in He. rewrite forallb_forall in He. simpl eval.
    eapply silent_bind.
    { apply (silent_mapM value_of). rewrite Forall_forall in IH |- *.
      intros a Hin. apply IH; [done|]. by apply He, list_elem_of_In. }
    intros vs Hvs. apply silent_ret. split; [done|].
    eexists. split; [done|]. by apply values_fill.
  - simpl in He. simpl eval. only_plain.
    eapply silent_bind; [by apply IH|]. intros x _.
    eapply silent_bind; [by apply (silent_perform (fun _ => True))|].
    intros s _. by apply silent_ret.
Qed.

End Printing.

Section Output.

Context {W : Type} (L : library W) (HL : plain_library L).

Implicit Types (st : state W).

Lemma printing_silent {A} (Q : A -> Prop) (m : M (W := W) A) :
  silent Q m -> printing [] m.
Proof.
  intros Hm st Hst. destruct (Hm st Hst) as (He & Hout & _).
  split; [done|]. exists []. rewrite app_nil_r. split; [done|].
  by destruct (fst (m st)).
Qed.

Lemma printing_after {A B} (Q : A -> Prop) outs
    (m : M (W := W) A) (f : A -> M B) :
  silent Q m -> (forall a, Q a -> printing outs (f a)) ->
  printing outs (bind m f).
Proof.
  intros Hm Hf st Hst. unfold bind.
  destruct (Hm st Hst) as (He & Hout & HQ).
  destruct (m st) as [[a|x] st1]; simpl in *.
  - destruct (Hf a (HQ a eq_refl) st1 He) as (He2 & lines & Hl & Hr).
    split; [done|]. exists lines. by rewrite Hl, Hout.
  - split; [done|]. exists []. by rewrite app_nil_r.
Qed.

Lemma printing_then_done {A} outs (m : M (W := W) A) :
  printing outs m -> printing outs (bind m (fun _ => ret tt)).
Proof.
  intros Hm st Hst. unfold bind.
  destruct (Hm st Hst) as (He & lines & Hl & Hr).
  destruct (m st) as [[a|x] st1]; simpl in *.
  - split; [done|]. by exists lines.
  - split; [done|]. by exists lines.
Qed.

(** While [print] is not bound, the name is the builtin. *)
Lemma silent_load_print :
  silent (W := W) (fun v => v = VBuiltin "print") (load_name "print").
Proof.
  intros st [Hp Hplain]. unfold load_name, perform. simpl.
  split; [done|]. split; [done|]. intros v. unfold resolve. rewrite Hp.
  rewrite bool_decide_eq_true_2
    by (apply (bool_decide_unpack _); vm_compute; exact I).
  by intros [= <-].
Qed.

(** [print] shows a string as it is. *)
Lemma strs_op_texts vs :
  forall w ss, fst (strs_op L vs w) = Ok ss ->
    Forall2 (fun v s => forall t, v = VStr t -> s = t) vs ss.
Proof.
  induction vs as [|v vs IH]; simpl; intros w ss.
  - intros [= <-]. constructor.
  - destruct (str_op L v w) as [[s|x] w'] eqn:Hs; [|done].
    specialize (IH w').
    destruct (strs_op L vs w') as [[ss'|x] w'']; simpl in *; [|done].
    intros [= <-]. constructor; [|by apply IH].
    intros t ->. simpl in Hs. by injection Hs as <-.
Qed.

Lemma shown_arg a v s :
  value_of a v -> (forall t, v = VStr t -> s = t) -> fills (arg_template a) s.
Proof.
  intros [_ Hv] Hs.
  assert (Hany : fills [None] s).
  { exists [s]. split; [|done]. constructor; [done|constructor]. }
  destruct a as [c| | | | | | | | | |es|]; try exact Hany.
  - exists [s]. split; [|done]. constructor; [|constructor].
    intros lit Hc. destruct c; try discriminate. injection Hc as ->.
    by apply Hs.
  - destruct Hv as (s0 & -> & Hfill). by rewrite (Hs s0 eq_refl).
Qed.

Lemma shown_args args avs ss :
  Forall2 value_of args avs ->
  Forall2 (fun v s => forall t, v = VStr t -> s = t) avs ss ->
  Forall2 (fun a s => fills (arg_template a) s) args ss.
Proof.
  intros Hv. revert ss.
  induction Hv as [|a v args avs Ha _ IH]; intros ss Hs.
  - apply Forall2_nil_inv_l in Hs as ->. constructor.
  - apply Forall2_cons_inv_l in Hs as (s & ss' & Hs & Hss & ->).
    constructor; [by eapply shown_arg|by apply IH].
Qed.

(** The builtin: one line, or an exception of an argument's [__str__]
    and no line. *)
Lemma printing_builtin_print e args avs :
  Forall2 value_of args avs -> printing [args] (builtin_print L e avs).
Proof.
  intros Hv st Hst. unfold builtin_print, bind, perform, write.
  destruct (strs_op L avs (world st)) as [[ss|x] w'] eqn:Hs; simpl.
  - split; [done|]. eexists. split; [done|].
    constructor; [|constructor]. exists ss. split; [|done].
    apply (shown_args args avs); [done|].
    apply (strs_op_texts avs (world st)). by rewrite Hs.
  - split; [done|]. exists []. by rewrite app_nil_r.
Qed.

Lemma tame_args args :
  forallb tame args = true ->
  silent (fun avs => Forall2 value_of args avs) (mapM (eval L) args).
Proof.
  intros Ha. rewrite forallb_forall in Ha.
  apply (silent_mapM value_of). apply Forall_forall.
  intros a Hin. apply eval_tame; [done|]. by apply Ha, list_elem_of_In.
Qed.

(** A statement [print(args)]. *)
Lemma printing_print args :
  forallb tame args = true ->
  printing [args] (bind (eval L (Call (Name "print") args [])) (fun _ => ret tt)).
Proof.
  intros Ha. apply printing_then_done.
  change (eval L (Call (Name "print") args [])) with
    (bind (load_name "print") (fun fv =>
     bind (mapM (eval L) args) (fun avs =>
     bind (ret []) (fun kvs =>
       call L (Call (Name "print") args []) fv avs kvs)))).
  eapply printing_after; [apply silent_load_print|]. intros fv ->.
  eapply printing_after; [by apply tame_args|]. intros avs Havs.
  eapply printing_after; [by apply (silent_ret (fun kvs => kvs = []))|].
  intros kvs ->. by apply printing_builtin_print.
Qed.

Lemma silent_store_name x v :
  x <> "print" -> plain v = true ->
  silent (W := W) (fun _ => True) (store_name x v).
Proof.
  intros Hx Hv st [Hp Hplain]. simpl. split; [|done]. split.
  - by rewrite lookup_insert_ne.
  - intros y u. rewrite lookup_insert_Some. intros [[_ <-]|[_ Hy]]; [done|].
    by apply (Hplain y).
Qed.

Lemma unpack_plain n v w vs :
  plain v = true -> fst (unpack_op L n v w) = Ok vs ->
  forallb plain vs = true.
Proof.
  intros Hv. unfold unpack_op.
  assert (Hiter : forall (r : result (list value)) (w' : W),
    (forall us, r = Ok us -> forallb plain us = true) ->
    fst (match r with
         | Ok us => if bool_decide (length us = n) then (Ok us, w')
                    else (Raised (Exn "ValueError" "unpack"), w')
         | Raised x => (Raised x, w')
         end) = Ok vs -> forallb plain vs = true).
  { intros [us|x] w' Hr; [|done]. case_bool_decide; [|done].
    simpl. intros [= <-]. by apply Hr. }
  destruct v as [| | | | |us0|us0| |]; simpl in Hv; try discriminate;
    try (destruct (lib_iter L _ w) as [r w'] eqn:Hi; apply Hiter;
         intros us ->; eapply (plain_iter L HL); by rewrite Hi).
  - apply (Hiter (Ok us0) w). by intros us [= <-].
  - apply (Hiter (Ok us0) w). by intros us [= <-].
Qed.

Lemma silent_assign t :
  forall v, plain v = true -> tame_target t = true ->
            "print" ∉ target_binds t ->
            silent (fun _ => True) (assign L t v).
Proof.
  induction t as [c|x|o a IH|o i IHo IHi|f args kws IHf IHa IHk|l op r IHl IHr
                 |op l r IHl IHr|c a b IHc IHa IHb|es IH|es IH|es IH|v IH]
    using expr_nested_ind; intros v0 Hv Ht Hb; simpl in Ht; try discriminate.
  - apply silent_store_name; [set_solver|done].
  - simpl. eapply silent_bind; [by apply eval_tame|]. intros ov _.
    by apply (silent_perform (fun _ => True)).
  - apply andb_prop in Ht as [Ht1 Ht2]. simpl.
    eapply silent_bind; [by apply eval_tame|]. intros ov _.
    eapply silent_bind; [by apply eval_tame|]. intros iv _.
    by apply (silent_perform (fun _ => True)).
  - simpl. eapply silent_bind.
    { apply (silent_perform (fun vs => forallb plain vs = true)).
      intros w vs. by apply unpack_plain. }
    simpl in Hb. clear Hv. intros vs Hvs. revert vs Hvs.
    induction IH as [|t ts Hthis _ IHts]; intros vs Hvs; simpl.
    + by apply silent_ret.
    + simpl in Ht, Hb. apply andb_prop in Ht as [Ht1 Ht2].
      rewrite elem_of_app in Hb.
      eapply silent_bind.
      * apply Hthis; [|done|tauto].
        destruct vs; simpl in *; [done|]. by apply andb_prop in Hvs as [? _].
      * intros _ _. apply IHts; [done|tauto|].
        destruct vs; simpl in *; [done|]. by apply andb_prop in Hvs as [_ ?].
  - simpl. eapply silent_bind.
    { apply (silent_perform (fun vs => forallb plain vs = true)).
      intros w vs. by apply unpack_plain. }
    simpl in Hb. clear Hv. intros vs Hvs. revert vs Hvs.
    induction IH as [|t ts Hthis _ IHts]; intros vs Hvs; simpl.
    + by apply silent_ret.
    + simpl in Ht, Hb. apply andb_prop in Ht as [Ht1 Ht2].
      rewrite elem_of_app in Hb.
      eapply silent_bind.
      * apply Hthis; [|done|tauto].
        destruct vs; simpl in *; [done|]. by apply andb_prop in Hvs as [? _].
      * intros _ _. apply IHts; [done|tauto|].
        destruct vs; simpl in *; [done|]. by apply andb_prop in Hvs as [_ ?].
Qed.

Lemma printed_inv s args :
  printed s = Some args -> s = Expr (Call (Name "print") args []).
Proof.
  destruct s as [| | |e| | | | | | | | | | |]; try discriminate.
  destruct e as [| | | |f a k| | | | | | |]; try discriminate.
  destruct f; try discriminate. destruct k; try discriminate.
  simpl. case_bool_decide; [|discriminate]. by intros [= <-]; subst.
Qed.

Lemma silent_exec_stmt s m :
  printed s = None -> plainly s = true -> "print" ∉ binds s ->
  exec_stmt L s = Some m -> silent (fun _ => True) m.
Proof.
  unfold plainly. intros ->.
  destruct s as [m0 [a|]|m0 n a|t v|v| | | | | | | | | | |]; simpl;
    try discriminate; intros Hs Hb.
  - intros [= <-]. eapply silent_bind.
    + apply (silent_perform (fun v => plain v = true)).
      intros w v. apply (plain_import L HL).
    + intros v Hv. apply silent_store_name; [set_solver|done].
  - intros [= <-]. eapply silent_bind.
    + apply (silent_perform (fun v => plain v = true)).
      intros w v. apply (plain_import L HL).
    + intros v Hv. eapply silent_bind.
      * case_bool_decide; [by apply (silent_ret (fun _ => True))|].
        by apply (silent_perform (fun _ => True)).
      * intros _ _. apply silent_store_name; [set_solver|done].
  - intros [= <-]. unfold exec_import_from. eapply silent_bind.
    + apply (silent_perform (fun v => plain v = true)).
      intros w v. apply (plain_import L HL).
    + intros v Hv. apply silent_store_name; [|done]. destruct a; set_solver.
  - apply andb_prop in Hs as [Hv Ht].
    destruct (assignable t); [|discriminate]. intros [= <-].
    eapply silent_bind; [by apply eval_tame|]. intros x [Hx _].
    by apply silent_assign.
  - intros [= <-]. eapply silent_bind; [by apply eval_tame|].
    intros _ _. by apply silent_ret.
  - intros [= <-]. by apply silent_ret.
Qed.

Lemma printing_exec_stmt s m :
  plainly s = true -> "print" ∉ binds s -> exec_stmt L s = Some m ->
  printing (option_list (printed s)) m.
Proof.
  intros Hs Hb Hm. destruct (printed s) as [args|] eqn:Hp.
  - unfold plainly in Hs. rewrite Hp in Hs.
    apply printed_inv in Hp as ->. simpl in Hm. injection Hm as <-.
    by apply printing_print.
  - simpl. eapply printing_silent. by eapply silent_exec_stmt.
Qed.

(** What a program has printed: a line for each of its [print] statements
    that returned, in order. *)
Theorem exec_prints p :
  forallb plainly p = true -> "print" ∉ flat_map binds p ->
  forall st, session_ok (env st) ->
    exists lines,
      stdout (snd (exec L p st)) = stdout st ++ lines
      /\ Forall2 prints_line (take (length lines) (omap printed p)) lines
      /\ (fst (exec L p st) = Finished ->
          length lines = length (omap printed p)).
Proof.
  induction p as [|s p IH]; intros Hp Hb st Hst.
  - exists []. simpl. rewrite app_nil_r. split; [done|]. split; [constructor|done].
  - simpl in Hp, Hb. apply andb_prop in Hp as [Hs Hp].
    rewrite elem_of_app in Hb.
    assert (Hout : omap printed (s :: p)
                   = option_list (printed s) ++ omap printed p).
    { simpl. by destruct (printed s). }
    rewrite Hout. simpl exec.
    destruct (exec_stmt L s) as [m|] eqn:Hm.
    2: { exists []. simpl. rewrite app_nil_r. split; [done|].
         split; [constructor|done]. }
    destruct (printing_exec_stmt s m Hs ltac:(tauto) Hm st Hst)
      as (He & lines & Hl & Hr).
    destruct (m st) as [[[]|x] st1]; simpl in *.
    + destruct (IH Hp ltac:(tauto) st1 He) as (lines2 & Hl2 & Hr2 & Hfin).
      exists (lines ++ lines2). rewrite Hl2, Hl, app_assoc. split; [done|].
      pose proof (Forall2_length _ _ _ Hr) as Hlen.
      rewrite !length_app. split.
      * rewrite take_app_add' by (by rewrite Hlen). by apply Forall2_app.
      * intros Hrun. by rewrite (Hfin Hrun), Hlen.
    + subst lines. exists []. split; [done|]. split; [constructor|done].
Qed.

Lemma run_prints nb w :
  forallb plainly (program nb) = true -> "print" ∉ variables nb ->
  Forall2 prints_line
          (take (length (stdout (snd (run L nb w)))) (outputs nb))
          (stdout (snd (run L nb w)))
  /\ (fst (run L nb w) = Finished ->
      length (stdout (snd (run L nb w))) = length (outputs nb)).
Proof.
  unfold run, variables, outputs. rewrite elem_of_remove_dups.
  intros Hp Hb.
  destruct (exec_prints (program nb) Hp Hb (initial w)) as (lines & -> & H).
  - split; [apply lookup_empty|]. intros x v. cbn [initial env].
    by rewrite lookup_empty.
  - exact H.
Qed.

End Output.

(** The [k]-th line of the output is that of the [k]-th [print]. *)
Lemma line_of (outs : list (list expr)) (out : list string) k args line :
  Forall2 prints_line (take (length out) outs) out ->
  outs !! k = Some args -> out !! k = Some line -> prints_line args line.
Proof.
  intros H Ho Hl. eapply Forall2_lookup_lr; [exact H| |exact Hl].
  rewrite lookup_take_lt; [done|]. by eapply lookup_lt_Some.
Qed.

(** [print(f"lit{e}")] writes [lit], the text of [e] and a newline. *)
Lemma prints_fstring lit e line :
  prints_line [JoinedStr [Str lit; FormattedValue e]] line ->
  exists s, line = (lit +:+ s) +:+ newline.
Proof.
  intros (ss & Hss & ->).
  apply Forall2_cons_inv_l in Hss as (s & ss' & (ps & Hps & ->) & Hss & ->).
  apply Forall2_nil_inv_l in Hss as ->.
  simpl in Hps.
  apply Forall2_cons_inv_l in Hps as (p1 & ps' & Hp1 & Hps & ->).
  apply Forall2_cons_inv_l in Hps as (p2 & ps'' & _ & Hps & ->).
  apply Forall2_nil_inv_l in Hps as ->.
  rewrite (Hp1 lit eq_refl). by exists p2.
Qed.

(** [print(a, b)] writes two texts with a space between, and a newline. *)
Lemma prints_pair a b line :
  prints_line [a; b] line ->
  exists s1 s2, line = (s1 +:+ " " +:+ s2) +:+ newline.
Proof.
  intros (ss & Hss & ->).
  apply Forall2_cons_inv_l in Hss as (s1 & ss' & _ & Hss & ->).
  apply Forall2_cons_inv_l in Hss as (s2 & ss'' & _ & Hss & ->).
  apply Forall2_nil_inv_l in Hss as ->. by exists s1, s2.
Qed.

Lemma symbolic_plain fault : plain_library (symbolic fault).
Proof.
  split; simpl; unfold fresh; intros;
    repeat match goal with
           | H : context [fault ?n] |- _ => destruct (fault n)
           end;
    simpl in *; try discriminate;
    match goal with H : Ok _ = Ok _ |- _ => by injection H as <- end.
Qed.



(** The hypothesis is needed: against a library whose [show] is the
    interpreter's [print], [cylinder.show()] writes a line of its own. *)
Example output_needs_a_plain_library :
  fst (run lends_print pin_cheat_list []) = Finished
  /\ length (stdout (snd (run lends_print pin_cheat_list []))) = 13.
Proof. vm_compute. done. Qed.

(* ===================================================================== *)
(** ** What decides the guard of cell 12 *)
(* ===================================================================== *)

Section Guard.

Context {W : Type} (L : library W).

Implicit Types (st : state W).

Lemma exec_app p q st :
  exec L (p ++ q) st =
    match exec L p st with
    | (Finished, st1) => exec L q st1
    | r => r
    end.
Proof.
  revert st. induction p as [|s p IH]; intros st; simpl; [done|].
  destruct (exec_stmt L s) as [m|]; [|done].
  destruct (m st) as [[[]|x] st1]; [apply IH|done].
Qed.

Lemma exec_keeps_hasattr p :
  "hasattr" ∉ flat_map binds p ->
  forall st, env st !! "hasattr" = None ->
             env (snd (exec L p st)) !! "hasattr" = None.
Proof.
  induction p as [|s p IH]; simpl; intros Hp st Hst; [done|].
  rewrite elem_of_app in Hp.
  destruct (exec_stmt L s) as [m|] eqn:Hm; [|done].
  destruct (probing_exec_stmt L s m ltac:(tauto) Hm st Hst) as (He & _).
  destruct (m st) as [[[]|x] st1]; simpl in *; [|done].
  apply IH; [tauto|done].
Qed.

Lemma eval_and l r :
  eval L (BoolOp And l r) =
    bind (eval L l) (fun a =>
    bind (perform (AtBool l) (truth_op L a)) (fun t : bool =>
    if t then eval L r else ret a)).
Proof. reflexivity. Qed.

Lemma eval_ifexp c a b :
  eval L (IfExp c a b) =
    bind (eval L c) (fun v =>
    bind (perform (AtBool c) (truth_op L v)) (fun t : bool =>
    if t then eval L a else eval L b)).
Proof. reflexivity. Qed.

(** The probe, step by step: the name, the object, the lookup. *)
Lemma eval_probe ob a st :
  env st !! "hasattr" = None ->
  eval L (Call (Name "hasattr") [ob; Str a] []) st =
    bind (load_name "hasattr") (fun _ =>
    bind (eval L ob) (fun o =>
    builtin_hasattr L (Call (Name "hasattr") [ob; Str a] []) o a)) st.
Proof.
  intros Hst. rewrite eval_call.
  change (eval L (Name "hasattr")) with (load_name (W := W) "hasattr").
  unfold bind at 1 5.
  destruct (load_name "hasattr" st) as [[fv|x] st0] eqn:Hload; [|done].
  assert (fv = VBuiltin "hasattr") as ->.
  { destruct (probing_load_name (W := W) "hasattr" st Hst) as (_ & _ & Hv).
    apply Hv; [|done]. by rewrite Hload. }
  simpl mapM. unfold bind, ret.
  destruct (eval L ob st0) as [[o|x] st1]; [|done].
  simpl. unfold call. by rewrite dispatch_probe.
Qed.

(** What the probe answers is what the library's objects have. *)
Lemma probe_answer ob a st v st' :
  env st !! "hasattr" = None ->
  eval L (Call (Name "hasattr") [ob; Str a] []) st = (Ok v, st') ->
  (lacks L a -> v = VBool false) /\ (offers L a -> v = VBool true).
Proof.
  intros Hst. rewrite eval_probe by done. unfold bind.
  destruct (load_name "hasattr" st) as [[fv|x] st0]; [|done].
  destruct (eval L ob st0) as [[o|x] st1]; [|done].
  unfold builtin_hasattr, perform, hasattr_op.
  destruct (lib_getattr L o a (world st1)) as [r w'] eqn:Hget.
  intros Hv. split.
  - intros Hlacks. destruct (Hlacks o (world st1)) as (x & Hx & Hattr).
    rewrite Hget in Hx. simpl in Hx. subst r. simpl in Hv.
    rewrite Hattr in Hv. by injection Hv as <- _.
  - intros Hoffers. specialize (Hoffers o (world st1)).
    rewrite Hget in Hoffers. simpl in Hoffers.
    destruct r as [u|x]; simpl in Hv; [by injection Hv as <- _|].
    rewrite (Hoffers x eq_refl) in Hv. discriminate.
Qed.

(** Without the attribute, what is to the right of the [and] does not
    matter. *)
Lemma guard_skipped ob a c c' st :
  lacks L a -> env st !! "hasattr" = None ->
  eval L (BoolOp And (Call (Name "hasattr") [ob; Str a] []) c) st
  = eval L (BoolOp And (Call (Name "hasattr") [ob; Str a] []) c') st.
Proof.
  intros Hlacks Hst. rewrite !eval_and. unfold bind.
  destruct (eval L (Call (Name "hasattr") [ob; Str a] []) st)
    as [[v|x] st'] eqn:Hprobe; [|done].
  destruct (probe_answer _ _ _ _ _ Hst Hprobe) as [-> _]; done.
Qed.

(** With the attribute, the right operand is evaluated whenever the probe
    returns. *)
Lemma guard_called ob a c st :
  offers L a -> env st !! "hasattr" = None ->
  eval L (BoolOp And (Call (Name "hasattr") [ob; Str a] []) c) st
  = eval L (IfExp (Call (Name "hasattr") [ob; Str a] []) c c) st.
Proof.
  intros Hoffers Hst. rewrite eval_and, eval_ifexp. unfold bind.
  destruct (eval L (Call (Name "hasattr") [ob; Str a] []) st)
    as [[v|x] st'] eqn:Hprobe; [|done].
  destruct (probe_answer _ _ _ _ _ Hst Hprobe) as [_ ->]; done.
Qed.

(** Replacing an expression statement by one that evaluates alike. *)
Lemma exec_replace pre post e e' st :
  "hasattr" ∉ flat_map binds pre -> env st !! "hasattr" = None ->
  (forall st1, env st1 !! "hasattr" = None -> eval L e st1 = eval L e' st1) ->
  exec L (pre ++ Expr e :: post) st = exec L (pre ++ Expr e' :: post) st.
Proof.
  intros Hpre Hst Heq. rewrite !exec_app.
  pose proof (exec_keeps_hasattr pre Hpre st Hst) as Hst1.
  destruct (exec L pre st) as [[|x|s] st1]; try done.
  simpl. unfold bind. by rewrite (Heq st1 Hst1).
Qed.

(** A run along the only route of a notebook. *)
Lemma along_only_route nb w r :
  forallb covered (program nb) = true ->
  Forall (fun p => p = r) (program_paths (program nb)) ->
  along r (fst (run L nb w)) (trace (snd (run L nb w))).
Proof.
  intros Hcov Hr. unfold run.
  destruct (exec_explained L (program nb) (initial w) Hcov) as (l & Hl & Hex).
  rewrite Hl. simpl. rewrite Forall_forall in Hr.
  destruct (fst (exec L (program nb) (initial w))) as [|x|s]; simpl in *.
  - destruct Hex as [_ Hin]. by apply Hr in Hin.
  - destruct Hex as (_ & _ & _ & _ & _ & p & Hp & Hpre).
    by rewrite <- (Hr p Hp).
  - done.
Qed.

Lemma run_replace nb nb' pre post e e' w :
  program nb = pre ++ Expr e :: post ->
  program nb' = pre ++ Expr e' :: post ->
  "hasattr" ∉ flat_map binds pre ->
  (forall st1, env st1 !! "hasattr" = None -> eval L e st1 = eval L e' st1) ->
  run L nb w = run L nb' w.
Proof.
  intros Hnb Hnb' Hpre Heq. unfold run. rewrite Hnb, Hnb'.
  apply exec_replace; [done|apply lookup_empty|done].
Qed.

End Guard.

Lemma notebook_around_cell_12 c :
  program (with_cell_12 c)
  = take 30 (program pin_cheat_list) ++ c ++ drop 31 (program pin_cheat_list).
Proof. vm_compute. reflexivity. Qed.

Lemma paths_all_equal (r : list site) (P : list (list site)) n :
  P = replicate n r -> Forall (fun p => p = r) P.
Proof.
  intros ->. apply Forall_forall. intros p Hp.
  by apply elem_of_replicate in Hp as [-> _].
Qed.

(** X7: a viewer without [jupyter_cell].  Against a library whose objects
    have no [jupyter_cell], the notebook runs exactly as the notebook
    with nothing to the right of the [and] of cell 12: same outcome, same
    operations with the same results, same output and same variables.
    Every run goes along the one route that skips
    [viz.viewer.jupyter_cell()], which is neither looked up nor
    called. *)
Theorem without_jupyter_cell_the_call_is_skipped :
  forall (W : Type) (L : library W) (w : W),
    lacks L "jupyter_cell" ->
    run L pin_cheat_list w = run L (with_cell_12 cell_12_skipping) w
    /\ along (program_route false (program pin_cheat_list))
             (fst (run L pin_cheat_list w))
             (trace (snd (run L pin_cheat_list w)))
    /\ times (is_load_of ["viz"; "viewer"; "jupyter_cell"])
             (sites (trace (snd (run L pin_cheat_list w)))) = 0
    /\ times (is_call_of ["viz"; "viewer"; "jupyter_cell"])
             (sites (trace (snd (run L pin_cheat_list w)))) = 0.
Proof.
  intros W L w HL.
  assert (Hrun : run L pin_cheat_list w
                 = run L (with_cell_12 cell_12_skipping) w).
  { apply (run_replace L _ _ (take 30 (program pin_cheat_list))
             (drop 31 (program pin_cheat_list))
             (BoolOp And jupyter_probe jupyter_call)
             (BoolOp And jupyter_probe (Constant CNone))).
    - vm_compute. reflexivity.
    - vm_compute. reflexivity.
    - apply (bool_decide_unpack _). vm_compute. exact I.
    - intros st1 Hst1. by apply guard_skipped. }
  assert (Hal : along (program_route false (program pin_cheat_list))
                      (fst (run L pin_cheat_list w))
                      (trace (snd (run L pin_cheat_list w)))).
  { rewrite Hrun. apply along_only_route; [vm_compute; reflexivity|].
    apply (paths_all_equal _ _ 2). vm_compute. reflexivity. }
  split; [exact Hrun|]. split; [exact Hal|]. split.
  - destruct (along_times (is_load_of ["viz"; "viewer"; "jupyter_cell"])
                _ _ _ 0 Hal) as [H0 _]; [by vm_compute|lia].
  - destruct (along_times (is_call_of ["viz"; "viewer"; "jupyter_cell"])
                _ _ _ 0 Hal) as [H0 _]; [by vm_compute|lia].
Qed.

Lemma without_jupyter_cell_witness :
  lacks (without_attribute "jupyter_cell" (symbolic no_fault)) "jupyter_cell"
  /\ times (is_call_of ["viz"; "viewer"; "jupyter_cell"])
           (sites (trace (snd (run (without_attribute "jupyter_cell"
                                      (symbolic no_fault))
                                   pin_cheat_list [])))) = 0.
Proof.
  assert (H : lacks (without_attribute "jupyter_cell" (symbolic no_fault))
                    "jupyter_cell").
  { intros o w. exists (Exn "AttributeError" "jupyter_cell"). by split. }
  split; [exact H|].
  apply (without_jupyter_cell_the_call_is_skipped _ _ [] H).
Defined.


